(** * Collabs: vector clocks, last-writer-wins registers, dynamic sets,
      document addressing and serializers

    A shallow embedding of the parts of the library that its
    specification makes checkable statements about:

    - [VectorClock]      src/src/vector_clock.ts
    - [Lww]              src/client/src/crdts/basic_crdts.ts (LwwRegisterBase)
    - [YjsCrdtSet]       src/client/src/crdt/set/yjs_crdt_sets.ts
    - [Doc]              AbstractDoc.idOf
    - [Wire], [Serializers]  src/core/src/util/serializers.{ts,proto}
    - [Counter], [GSet], [Mvr]  the other registers and sets of
                             basic_crdts.ts
    - [MoreSerializers], [CBoolean]  PairSerializer, BooleanSerializer
                             and the aggregators of CBoolean

    JavaScript numbers that are used as counters or timestamps are
    integers here ([Z]); a JavaScript [Map] whose iteration order is not
    observable in the result is a [gmap]. *)

From Stdlib Require Import ZArith Lia Bool.
From stdpp Require Import base gmap strings list fin_maps.

Local Open Scope Z_scope.

(** ** Values a [Map<any, number>] lookup can produce *)

(** [Map.prototype.get] yields the stored number or [undefined]; the code
    compares such results with [null] and with the result of a
    subtraction, which is [NaN] when its operand is [undefined]. *)
Inductive jsnum : Type :=
| JSundefined
| JSnull
| JSNaN
| JSnumber (n : Z).

(** [a === b] *)
Definition strict_eq (a b : jsnum) : bool :=
  match a, b with
  | JSundefined, JSundefined => true
  | JSnull, JSnull => true
  | JSnumber x, JSnumber y => x =? y
  | _, _ => false
  end.

(** [a - 1] ([undefined] converts to [NaN], [null] to [0]) *)
Definition minus_one (a : jsnum) : jsnum :=
  match a with
  | JSnumber x => JSnumber (x - 1)
  | JSnull => JSnumber (-1)
  | JSundefined | JSNaN => JSNaN
  end.

(** [a < b]; a comparison with [NaN] or [undefined] is [false] *)
Definition js_lt (a b : jsnum) : bool :=
  match a, b with
  | JSnumber x, JSnumber y => x <? y
  | JSnull, JSnumber y => 0 <? y
  | JSnumber x, JSnull => x <? 0
  | _, _ => false
  end.

(** [m.get(k)] and [m.has(k)] *)
Definition Map_get (m : gmap string Z) (k : string) : jsnum :=
  match m !! k with
  | Some n => JSnumber n
  | None => JSundefined
  end.

Definition Map_has {A} (m : gmap string A) (k : string) : bool :=
  bool_decide (is_Some (m !! k)).

(** ** src/src/vector_clock.ts *)

Module VectorClock.

Record t : Type := mk { uid : string; vectorMap : gmap string Z }.

(** [constructor(replicaID)] *)
Definition new (replicaID : string) : t :=
  {| uid := replicaID; vectorMap := <[replicaID := 0]> ∅ |}.

Definition getUid (this : t) : string := uid this.
Definition getVectorMap (this : t) : gmap string Z := vectorMap this.
Definition getSize (this : t) : nat := size (vectorMap this).

(** [increment()] *)
Definition increment (this : t) : t :=
  match vectorMap this !! uid this with
  | Some oldValue =>
      {| uid := uid this;
         vectorMap := <[uid this := oldValue + 1]> (vectorMap this) |}
  | None => this
  end.

(** One iteration of the loops of [isready]: the body is the same in
    both branches. *)
Definition isready_body (thisMap otherVectorMap : gmap string Z)
    (otherUid id : string) (ready : bool) : bool :=
  if bool_decide (id ≠ otherUid) && negb (Map_has thisMap id) then false
  else if bool_decide (id ≠ otherUid)
          && js_lt (Map_get thisMap id) (Map_get otherVectorMap id)
       then false
       else ready.

Definition isready_loop (thisMap otherVectorMap : gmap string Z)
    (otherUid : string) : bool :=
  map_fold (λ id _ ready, isready_body thisMap otherVectorMap otherUid id ready)
           true otherVectorMap.

(** [isready(vc)] *)
Definition isready (this vc : t) : bool :=
  let otherUid := getUid vc in
  let otherVectorMap := getVectorMap vc in
  if negb (strict_eq (Map_get (vectorMap this) otherUid) JSnull) then
    if strict_eq (Map_get (vectorMap this) otherUid)
                 (minus_one (Map_get otherVectorMap otherUid))
    then isready_loop (vectorMap this) otherVectorMap otherUid
    else false
  else isready_loop (vectorMap this) otherVectorMap otherUid.

(** One iteration of the loop of [merge]; [v] is
    [otherVectorMap.get(id)] for the key being visited. *)
Definition merge_body (id : string) (v : Z) (m : gmap string Z)
    : gmap string Z :=
  match m !! id with
  | None => <[id := v]> m
  | Some mine => <[id := Z.max mine v]> m
  end.

(** [merge(vc)] *)
Definition merge (this vc : t) : t :=
  {| uid := uid this;
     vectorMap := map_fold merge_body (vectorMap this) (getVectorMap vc) |}.

(** [setEntry(someUid, clockValue)] *)
Definition setEntry (this : t) (someUid : string) (clockValue : Z) : t :=
  {| uid := uid this;
     vectorMap := <[someUid := clockValue]> (vectorMap this) |}.

(** The mutating methods, as data, and a run of them on one clock. *)
Inductive op : Type :=
| Increment
| Merge (vc : t)
| SetEntry (someUid : string) (clockValue : Z).

Definition step (this : t) (o : op) : t :=
  match o with
  | Increment => increment this
  | Merge vc => merge this vc
  | SetEntry someUid clockValue => setEntry this someUid clockValue
  end.

Definition run (this : t) (ops : list op) : t := foldl step this ops.

(** The entry of a clock for a key, an absent entry counting as 0. *)
Definition entry (m : gmap string Z) (k : string) : Z := default 0 (m !! k).

(** The ready predicate in the words of the specification: the
    receiver's entry for the sender is [c - 1], and the receiver's entry
    for every other key of [T] is at least [T]'s, absent entries
    counting as 0 on the receiver's side. *)
Definition ready_spec (R T : gmap string Z) (s : string) (c : Z) : Prop :=
  entry R s = c - 1 ∧
  ∀ k v, k ≠ s → T !! k = Some v → entry R k >= v.

(** What the loops check: every other key of [T] is present in [R] with
    an entry at least [T]'s. *)
Definition others_covered (R T : gmap string Z) (s : string) : Prop :=
  ∀ k v, k ≠ s → T !! k = Some v → ∃ r, R !! k = Some r ∧ r >= v.

(** Counters count messages: no entry is negative. *)
Definition nonneg (m : gmap string Z) : Prop :=
  ∀ k v, m !! k = Some v → 0 <= v.

End VectorClock.

(** ** Causal timestamps and thrown errors *)

(** The part of the [CausalTimestamp] interface the modelled code reads:
    [getSender()], [getSenderCounter()], [asVectorClock()], [isLocal()]. *)
Record CausalTimestamp : Type := mkTimestamp {
  getSender : string;
  getSenderCounter : Z;
  asVectorClock : gmap string Z;
  isLocal : bool
}.

(** A call either returns or throws. *)
Inductive result (E A : Type) : Type :=
| Ok (a : A)
| Throw (e : E).
Arguments Ok {E A} a.
Arguments Throw {E A} e.

(** ** src/client/src/crdts/basic_crdts.ts: LwwRegisterBase *)

Module Lww.

(** [number | null]: [null] converts to 0 under [>] and is loosely
    equal to no number. *)
Definition nullable (o : option Z) : jsnum :=
  match o with
  | Some n => JSnumber n
  | None => JSnull
  end.

(** [a == b] for a number [a] and a [number | null] [b] *)
Definition loose_eq (a b : jsnum) : bool :=
  match a, b with
  | JSnumber x, JSnumber y => x =? y
  | JSnull, JSnull | JSnull, JSundefined
  | JSundefined, JSnull | JSundefined, JSundefined => true
  | _, _ => false
  end.

(** [a > b] on strings. JavaScript compares the UTF-16 code units from
    the left. A replica ID is modelled as a string of ASCII characters,
    one [ascii] per code unit, and on these [String.ltb] is that
    order. *)
Definition string_gt (a b : string) : bool := String.ltb b a.

Section Register.
Context {T : Type}.
(** [a !== b] on values of type [T] *)
Variable differs : T → T → bool.

Record LwwState : Type := mkState {
  value : T;
  initialValue : T;
  sender : option string;
  counter : Z;
  time : option Z
}.

(** [new LwwState(initialValue, null, -1, null)] *)
Definition initialState (initialValue : T) : LwwState :=
  {| value := initialValue; initialValue := initialValue;
     sender := None; counter := -1; time := None |}.

(** The decoded [LwwMessage], its value already deserialized. *)
Record LwwMessage : Type := mkMessage { msg_value : T; msg_time : Z }.

Record LwwEvent : Type := mkEvent {
  ev_timestamp : CausalTimestamp;
  ev_value : T;
  ev_oldValue : T;
  ev_timeSet : Z
}.

(** The first decision of [receive]: is the message causally greater
    than the current state? *)
Definition causallyGreater (state : LwwState) (timestamp : CausalTimestamp)
    : bool :=
  let vc := asVectorClock timestamp in
  match sender state with
  | None => true
  | Some stateSender =>
      match vc !! stateSender with
      | Some vcEntry => counter state <=? vcEntry
      | None => false
      end
  end.

(** The value of the local variable [overwrite] when [receive]
    reaches [if (overwrite)]. *)
Definition overwrite (state : LwwState) (timestamp : CausalTimestamp)
    (decoded : LwwMessage) : bool :=
  let overwrite := causallyGreater state timestamp in
  if negb overwrite then
    if js_lt (nullable (time state)) (JSnumber (msg_time decoded)) then true
    else if loose_eq (JSnumber (msg_time decoded)) (nullable (time state))
         then match sender state with
              | Some stateSender => string_gt (getSender timestamp) stateSender
              | None => false
              end
         else overwrite
  else overwrite.

(** [receive(timestamp, message)]: the new state, the returned
    [changed] flag and the event emitted, if any. *)
Definition receive (state : LwwState) (timestamp : CausalTimestamp)
    (decoded : LwwMessage) : LwwState * bool * option LwwEvent :=
  let value' := msg_value decoded in
  if overwrite state timestamp decoded then
    let changed := differs (value state) value' in
    let oldValue := value state in
    let state' :=
      {| value := value';
         initialValue := initialValue state;
         sender := Some (getSender timestamp);
         counter := getSenderCounter timestamp;
         time := Some (msg_time decoded) |} in
    if changed then
      (state', true,
       Some {| ev_timestamp := timestamp; ev_value := value';
               ev_oldValue := oldValue; ev_timeSet := msg_time decoded |})
    else (state', false, None)
  else (state, false, None).

(** The state a replica holds after a [receive]. *)
Definition after (state : LwwState) (timestamp : CausalTimestamp)
    (decoded : LwwMessage) : LwwState :=
  (receive state timestamp decoded).1.1.



End Register.

Arguments LwwState T : clear implicits.
Arguments LwwMessage T : clear implicits.
Arguments LwwEvent T : clear implicits.

End Lww.

(** ** src/client/src/crdt/set/yjs_crdt_sets.ts *)

(** A [Uint8Array]: a list of octets. *)
Abbreviation bytes := (list Z) (only parsing).

Module YjsCrdtSet.

(** The decoded [YjsCrdtSetMessage]: [decoded.op] names the member of
    the oneof that is set, if any. *)
Inductive YjsCrdtSetMessage : Type :=
| Create (create : Z)
| Delete (delete : string)
| NoOp (op : string).

(** What [receiveInternal] throws. *)
Inductive error : Type :=
| DuplicateName (name : string)
| UnknownOp (op : string)
| FrozenChild (name : string)
| Malformed
| ChildError (name : string).

Section Set_.
(** The child Crdts, [C extends Crdt]. *)
Context {C : Type}.
(** The constructor argument [valueCrdtConstructor]. *)
Variable valueCrdtConstructor : string → C.
(** [newCrdt.init(name, this)]: the child learns its name and parent;
    the [onChildInit] check of the parent is passed because
    [childBeingAdded] is the very child being initialised. *)
Variable init : string → C → C.
(** [child.receive(targetPath, timestamp, message)] *)
Variable child_receive :
  C → list string → CausalTimestamp → bytes → result error C.
(** [YjsCrdtSetMessage.decode] (generated protobuf code). *)
Variable decode : bytes → result error YjsCrdtSetMessage.
(** [YjsCrdtSet.nameSerializer.serialize], the default element
    serializer at type [[string, number]], and [arrayAsString]; both
    live in the util package. *)
Variable nameSerializer_serialize : string * Z → bytes.
Variable arrayAsString : bytes → string.

Inductive event : Type :=
| ValueInit (value : C)
| Add (value : C) (timestamp : CausalTimestamp)
| Deleted (value : C) (timestamp : CausalTimestamp).

Record t : Type := mk {
  children : gmap string C;
  childBeingAdded : option C;
  ourCreatedCrdt : option C;
  (** events emitted so far, oldest first *)
  emitted : list event
}.

(** The name given to a child created by [sender] with create counter
    [create]: ["[sender, counter]" as id]. *)
Definition childName (sender : string) (create : Z) : string :=
  arrayAsString (nameSerializer_serialize (sender, create)).

(** [receiveInternal(targetPath, timestamp, message)]. The last
    element of [targetPath] is the name of the next child on the
    path. *)
Definition receiveInternal (this : t) (targetPath : list string)
    (timestamp : CausalTimestamp) (message : bytes) : result error t :=
  match last targetPath with
  | None =>
      (* targetPath.length === 0 *)
      match decode message with
      | Throw e => Throw e
      | Ok (Create create) =>
          let newCrdt := valueCrdtConstructor (getSender timestamp) in
          let name := childName (getSender timestamp) create in
          if Map_has (children this) name then Throw (DuplicateName name)
          else
            let newCrdt := init name newCrdt in
            Ok {| children := <[name := newCrdt]> (children this);
                  childBeingAdded := None;
                  ourCreatedCrdt :=
                    if isLocal timestamp then Some newCrdt
                    else ourCreatedCrdt this;
                  emitted := emitted this
                             ++ [ValueInit newCrdt; Add newCrdt timestamp] |}
      | Ok (Delete name) =>
          match children this !! name with
          | Some valueCrdt =>
              Ok {| children := delete name (children this);
                    childBeingAdded := childBeingAdded this;
                    ourCreatedCrdt := ourCreatedCrdt this;
                    emitted := emitted this ++ [Deleted valueCrdt timestamp] |}
          | None => Ok this
          end
      | Ok (NoOp op) => Throw (UnknownOp op)
      end
  | Some name =>
      match children this !! name with
      | None =>
          (* a message for a deleted, hence frozen, child *)
          if isLocal timestamp then Throw (FrozenChild name)
          else Ok this
      | Some child =>
          match child_receive child (removelast targetPath) timestamp message with
          | Ok child' =>
              Ok {| children := <[name := child']> (children this);
                    childBeingAdded := childBeingAdded this;
                    ourCreatedCrdt := ourCreatedCrdt this;
                    emitted := emitted this |}
          | Throw e => Throw e
          end
      end
  end.

End Set_.

Arguments t C : clear implicits.
Arguments event C : clear implicits.

End YjsCrdtSet.

(** ** AbstractDoc *)

Module Doc.

Inductive error : Type :=
| OtherDocument   (* "idOf called with Collab from different AbstractDoc" *)
| RuntimeError (e : string).

Section AbstractDoc.
(** [CRuntime] objects, compared by reference with [!==]; the Collabs
    of some runtime; the IDs a runtime hands out. *)
Context {CRuntime Collab CollabID : Type} `{EqDecision CRuntime}.
(** [collab.runtime] *)
Variable collab_runtime : Collab → CRuntime.
(** [CRuntime.idOf], whose code is not part of the sources. *)
Variable runtime_idOf : CRuntime → Collab → result error CollabID.

Record AbstractDoc : Type := mk { runtime : CRuntime }.

(** [idOf(collab)] *)
Definition idOf (this : AbstractDoc) (collab : Collab)
    : result error CollabID :=
  if decide (collab_runtime collab ≠ runtime this) then Throw OtherDocument
  else runtime_idOf (runtime this) collab.

End AbstractDoc.

End Doc.

(** ** The protobuf wire format, as protobuf.js writes and reads it *)

Module Wire.

Inductive error : Type :=
| IndexOutOfRange
| InvalidVarint
| InvalidWireType (wireType : Z)
| GroupsNotModelled.

#[global] Instance result_ret {E} : MRet (result E) := λ A a, Ok a.
#[global] Instance result_bind {E} : MBind (result E) := λ A B f r,
  match r with
  | Ok a => f a
  | Throw e => Throw e
  end.

(** *** Writer *)

(** Base-128 varint, least significant group first; [fuel] bounds the
    number of octets (10 for 64 bits). *)
Fixpoint writeVarint (fuel : nat) (u : Z) : bytes :=
  match fuel with
  | O => []
  | S fuel' =>
      if u <? 128 then [u]
      else Z.lor (Z.land u 127) 128 :: writeVarint fuel' (Z.shiftr u 7)
  end.

(** [Writer.uint32(value)]: [value >>> 0] as a varint. *)
Definition uint32 (value : Z) : bytes := writeVarint 5 (value mod 2 ^ 32).

(** Zig-zag encoding of a signed 64-bit integer. *)
Definition zzEncode (n : Z) : Z :=
  Z.lxor (Z.shiftl n 1) (Z.shiftr n 63) mod 2 ^ 64.

(** [Writer.sint64(value)] *)
Definition sint64 (value : Z) : bytes := writeVarint 10 (zzEncode value).

(** [Writer.bool(value)] *)
Definition bool_ (value : bool) : bytes := [if value then 1 else 0].

(** The [k]-th of the 8 octets of a 64-bit pattern, little-endian. *)
Definition fixed64 (bits : Z) : bytes :=
  map (λ k, Z.land (Z.shiftr bits (8 * Z.of_nat k)) 255) (seq 0 8).

(** [Writer.bytes(value)]: the length as a varint, then the octets. *)
Definition bytes_ (value : bytes) : bytes :=
  uint32 (Z.of_nat (length value)) ++ value.

(** The octets of a string and back. A string stands for its UTF-8
    encoding, one character per octet. *)
Definition string_to_bytes (s : string) : bytes :=
  map (λ a, Z.of_N (Ascii.N_of_ascii a)) (String.list_ascii_of_string s).

Definition bytes_to_string (b : bytes) : string :=
  String.string_of_list_ascii (map (λ x, Ascii.ascii_of_N (Z.to_N x)) b).

(** [Writer.string(value)] *)
Definition string_ (value : string) : bytes := bytes_ (string_to_bytes value).

(** The tag of a field: its number and wire type. *)
Definition tag (fieldNumber wireType : Z) : bytes :=
  uint32 (Z.lor (Z.shiftl fieldNumber 3) wireType).

(** *** Reader: every read returns the value and the rest of the buffer *)

Fixpoint readVarint (fuel : nat) (shift : Z) (buf : bytes)
    : result error (Z * bytes) :=
  match fuel, buf with
  | O, _ => Throw InvalidVarint
  | S _, [] => Throw IndexOutOfRange
  | S fuel', b :: rest =>
      if b <? 128 then Ok (Z.shiftl b shift, rest)
      else
        '(v, rest') ← readVarint fuel' (shift + 7) rest;
        Ok (Z.lor (Z.shiftl (Z.land b 127) shift) v, rest')
  end.

(** [Reader.uint32()] *)
Definition read_uint32 (buf : bytes) : result error (Z * bytes) :=
  '(v, rest) ← readVarint 10 0 buf; Ok (v mod 2 ^ 32, rest).

(** Zig-zag decoding, to a signed 64-bit integer. *)
Definition zzDecode (u : Z) : Z :=
  Z.lxor (Z.shiftr u 1) (- Z.land u 1).

(** [Reader.sint64()], before the conversion to [Long] or [number]. *)
Definition read_sint64 (buf : bytes) : result error (Z * bytes) :=
  '(v, rest) ← readVarint 10 0 buf; Ok (zzDecode (v mod 2 ^ 64), rest).

(** [Reader.bool()] *)
Definition read_bool (buf : bytes) : result error (bool * bytes) :=
  '(v, rest) ← read_uint32 buf; Ok (negb (v =? 0), rest).

(** [n] octets, or [RangeError: index out of range]. *)
Definition read_raw (n : nat) (buf : bytes) : result error (bytes * bytes) :=
  if decide (n ≤ length buf)%nat then Ok (take n buf, drop n buf)
  else Throw IndexOutOfRange.

Definition read_fixed64 (buf : bytes) : result error (Z * bytes) :=
  '(b, rest) ← read_raw 8 buf;
  Ok (foldr (λ x acc, Z.lor (Z.land x 255) (Z.shiftl acc 8)) 0 b, rest).

(** [Reader.bytes()] *)
Definition read_bytes (buf : bytes) : result error (bytes * bytes) :=
  '(len, rest) ← read_uint32 buf; read_raw (Z.to_nat len) rest.

(** [Reader.string()] *)
Definition read_string (buf : bytes) : result error (string * bytes) :=
  '(b, rest) ← read_bytes buf; Ok (bytes_to_string b, rest).

(** [Reader.skipType(wireType)]; the deprecated group wire types are
    not modelled. *)
Definition skipType (wireType : Z) (buf : bytes) : result error bytes :=
  if wireType =? 0 then '(_, rest) ← readVarint 10 0 buf; Ok rest
  else if wireType =? 1 then '(_, rest) ← read_raw 8 buf; Ok rest
  else if wireType =? 2 then '(_, rest) ← read_bytes buf; Ok rest
  else if wireType =? 3 then Throw GroupsNotModelled
  else if wireType =? 5 then '(_, rest) ← read_raw 4 buf; Ok rest
  else Throw (InvalidWireType wireType).

(** The decode loop of a generated message type:
    [while (reader.pos < end) { tag = reader.uint32(); switch (tag >>> 3) ... }].
    [field fieldNumber wireType buf message] reads one known field into
    the message, or returns [None] for a field number the type does not
    declare, which is then skipped. Every iteration consumes an octet,
    so the length of the buffer is fuel enough. *)
Section Decode.
Context {M : Type}.
Variable field : Z → Z → bytes → M → option (result error (M * bytes)).

Fixpoint decode_loop (fuel : nat) (buf : bytes) (message : M)
    : result error M :=
  match buf with
  | [] => Ok message
  | _ :: _ =>
      match fuel with
      | O => Throw IndexOutOfRange
      | S fuel' =>
          '(t, rest) ← read_uint32 buf;
          match field (Z.shiftr t 3) (Z.land t 7) rest message with
          | Some r => '(message', rest') ← r; decode_loop fuel' rest' message'
          | None =>
              rest' ← skipType (Z.land t 7) rest;
              decode_loop fuel' rest' message
          end
      end
  end.

Definition decode (empty : M) (buf : bytes) : result error M :=
  decode_loop (length buf) buf empty.
End Decode.

End Wire.

(** ** src/core/src/util/serializers.ts and serializers.proto *)

Module Serializers.
Import Wire.

Inductive error : Type :=
| WireError (e : Wire.error)
| CollabNotSupported
| UnsupportedClass (constructorName : string)
| UnsupportedType (typeofValue : string)
| BadMessageFormat
| NotModelled.

Definition lift {A} (r : result Wire.error A) : result error A :=
  match r with
  | Ok a => Ok a
  | Throw e => Throw (WireError e)
  end.

(** *** Numbers *)

(** A JavaScript number is a double. A double whose value is an
    integer is [Integer z] (the two zeros, which [===] identifies, are
    both [Integer 0]); every other double (fractions, NaN, infinities)
    is given by its IEEE-754 bit pattern. *)
Inductive number : Type :=
| Integer (z : Z)
| OtherDouble (bits : Z).

(** [Number.isSafeInteger(value)] *)
Definition isSafeInteger (value : number) : bool :=
  match value with
  | Integer z => Z.abs z <=? 2 ^ 53 - 1
  | OtherDouble _ => false
  end.

Definition integerValue (value : number) : Z :=
  match value with
  | Integer z => z
  | OtherDouble _ => 0
  end.

(** The bit pattern of a double, and the double of a bit pattern. *)
Definition float64_bits (value : number) : Z :=
  match value with
  | OtherDouble bits => bits
  | Integer z =>
      if z =? 0 then 0
      else
        let a := Z.abs z in
        let e := Z.log2 a in
        let m := if e <=? 52 then Z.shiftl a (52 - e) else Z.shiftr a (e - 52) in
        Z.lor (Z.lor (if z <? 0 then Z.shiftl 1 63 else 0)
                     (Z.shiftl (e + 1023) 52))
              (Z.land m (Z.ones 52))
  end.

Definition number_of_bits (bits : Z) : number :=
  let negative := Z.testbit bits 63 in
  let ex := Z.land (Z.shiftr bits 52) 2047 in
  let frac := Z.land bits (Z.ones 52) in
  let signed (a : Z) := if negative then - a else a in
  if (ex =? 0) && (frac =? 0) then Integer 0
  else if (ex =? 0) || (ex =? 2047) then OtherDouble bits
  else
    let m := Z.lor (Z.shiftl 1 52) frac in
    let e := ex - 1075 in
    if 0 <=? e then Integer (signed (Z.shiftl m e))
    else if Z.land m (Z.ones (- e)) =? 0 then Integer (signed (Z.shiftr m (- e)))
    else OtherDouble bits.

(** The double nearest to an integer, ties to even: the result of
    [Long.toNumber()] and of [LongBits.toNumber()]. *)
Definition roundToDouble (z : Z) : Z :=
  let a := Z.abs z in
  if a <? 2 ^ 53 then z
  else
    let e := Z.log2 a - 52 in
    let q := Z.shiftr a e in
    let r := Z.land a (Z.ones e) in
    let half := 2 ^ (e - 1) in
    let q' := if (half <? r) || ((r =? half) && Z.odd q) then q + 1 else q in
    Z.sgn z * (q' * 2 ^ e).

(** [number | Long], the type of a decoded 64-bit field. *)
Inductive int64 : Type :=
| AsNumber (n : Z)
| AsLong (l : Z).

(** [int64AsNumber(num)] *)
Definition int64AsNumber (num : int64) : Z :=
  match num with
  | AsNumber n => n
  | AsLong l => roundToDouble l
  end.

(** *** DefaultSerializerMessage *)

(** The members of the oneof [value]. The bodies of [objectValue] and
    [optionalValue] (whose message type the .proto file does not
    declare) are kept as raw octets. *)
Inductive field : Type :=
| stringValue (s : string)
| intValue (n : int64)
| doubleValue (d : number)
| booleanValue (b : bool)
| undefinedValue (b : bool)
| nullValue (b : bool)
| arrayValue (elements : list bytes)
| objectValue (raw : bytes)
| bytesValue (b : bytes)
| optionalValue (raw : bytes).

Definition fieldNumber (f : field) : Z :=
  match f with
  | stringValue _ => 1 | intValue _ => 2 | doubleValue _ => 3
  | booleanValue _ => 4 | undefinedValue _ => 5 | nullValue _ => 6
  | arrayValue _ => 7 | objectValue _ => 8 | bytesValue _ => 9
  | optionalValue _ => 10
  end.

(** A decoded message: its own properties in insertion order. *)
Definition message : Type := list field.

(** [message.f = x]: an existing property keeps its place. *)
Fixpoint assign (m : message) (f : field) : message :=
  match m with
  | [] => [f]
  | g :: m' => if fieldNumber g =? fieldNumber f then f :: m' else g :: assign m' f
  end.

(** The virtual property [value] of the oneof: the member set last. *)
Definition oneof_value (m : message) : option field := last m.

(** [ArrayMessage.encode]: [repeated bytes elements = 1] *)
Definition ArrayMessage_encode (elements : list bytes) : bytes :=
  flat_map (λ e, tag 1 2 ++ bytes_ e) elements.

Definition ArrayMessage_field (n w : Z) (buf : bytes) (m : list bytes)
    : option (result Wire.error (list bytes * bytes)) :=
  if n =? 1 then Some ('(e, rest) ← read_bytes buf; Ok (m ++ [e], rest))
  else None.

Definition ArrayMessage_decode (buf : bytes) : result Wire.error (list bytes) :=
  decode ArrayMessage_field [] buf.

(** [DefaultSerializerMessage.encode(message).finish()] for a message
    object with the one property [f]. *)
Definition encode (f : field) : bytes :=
  match f with
  | stringValue s => tag 1 2 ++ string_ s
  | intValue n =>
      tag 2 0 ++ sint64 (match n with AsNumber z => z | AsLong l => l end)
  | doubleValue d => tag 3 1 ++ fixed64 (float64_bits d)
  | booleanValue b => tag 4 0 ++ bool_ b
  | undefinedValue b => tag 5 0 ++ bool_ b
  | nullValue b => tag 6 0 ++ bool_ b
  | arrayValue elements => tag 7 2 ++ bytes_ (ArrayMessage_encode elements)
  | objectValue raw => tag 8 2 ++ bytes_ raw
  | bytesValue b => tag 9 2 ++ bytes_ b
  | optionalValue raw => tag 10 2 ++ bytes_ raw
  end.

(** One [case] of the switch of [DefaultSerializerMessage.decode].
    [hasLong] tells whether protobuf.js found the Long library, in
    which case 64-bit fields decode to [Long] objects. *)
Definition decode_field (hasLong : bool) (n w : Z) (buf : bytes) (m : message)
    : option (result Wire.error (message * bytes)) :=
  let set {A} (read : bytes → result Wire.error (A * bytes)) (mk : A → field) :=
    Some ('(x, rest) ← read buf; Ok (assign m (mk x), rest)) in
  if n =? 1 then set read_string stringValue
  else if n =? 2 then
    set read_sint64
        (λ v, intValue (if hasLong then AsLong v else AsNumber (roundToDouble v)))
  else if n =? 3 then set read_fixed64 (λ b, doubleValue (number_of_bits b))
  else if n =? 4 then set read_bool booleanValue
  else if n =? 5 then set read_bool undefinedValue
  else if n =? 6 then set read_bool nullValue
  else if n =? 7 then
    set (λ buf, '(body, rest) ← read_bytes buf;
                elements ← ArrayMessage_decode body; Ok (elements, rest))
        arrayValue
  else if n =? 8 then set read_bytes objectValue
  else if n =? 9 then set read_bytes bytesValue
  else if n =? 10 then set read_bytes optionalValue
  else None.

Definition decode (hasLong : bool) (buf : bytes) : result Wire.error message :=
  Wire.decode (decode_field hasLong) [] buf.

(** *** DefaultSerializer *)

(** The values the serializer is given. Plain objects and [Optional]s,
    which are serialized member by member like arrays, are not part of
    this fragment; [VInstance] is an object of some other class and
    [VOther] a value whose [typeof] is none of the supported ones. *)
#[warnings="-register-all"]
Inductive value : Type :=
| VString (s : string)
| VNumber (n : number)
| VBoolean (b : bool)
| VUndefined
| VNull
| VUint8Array (b : bytes)
| VArray (elements : list value)
| VCollab
| VInstance (constructorName : string)
| VOther (typeofValue : string).

(** [serialize(value)] *)
Fixpoint serialize (v : value) : result error bytes :=
  match v with
  | VString s => Ok (encode (stringValue s))
  | VNumber n =>
      if isSafeInteger n then Ok (encode (intValue (AsNumber (integerValue n))))
      else Ok (encode (doubleValue n))
  | VBoolean b => Ok (encode (booleanValue b))
  | VUndefined => Ok (encode (undefinedValue true))
  | VNull => Ok (encode (nullValue true))
  | VUint8Array b => Ok (encode (bytesValue b))
  | VArray elements =>
      elements' ← (fix go (l : list value) : result error (list bytes) :=
                     match l with
                     | [] => Ok []
                     | x :: l' => b ← serialize x; bs ← go l'; Ok (b :: bs)
                     end) elements;
      Ok (encode (arrayValue elements'))
  | VCollab => Throw CollabNotSupported
  | VInstance constructorName => Throw (UnsupportedClass constructorName)
  | VOther typeofValue => Throw (UnsupportedType typeofValue)
  end.

(** [deserialize(message)]. An element of an array is shorter than the
    message that holds it, so the length of the message bounds the
    depth of the recursion. *)
Fixpoint deserialize_depth (hasLong : bool) (depth : nat) (msg : bytes)
    : result error value :=
  decoded ← lift (decode hasLong msg);
  match oneof_value decoded with
  | Some (stringValue s) => Ok (VString s)
  | Some (intValue n) => Ok (VNumber (Integer (int64AsNumber n)))
  | Some (doubleValue d) => Ok (VNumber d)
  | Some (booleanValue b) => Ok (VBoolean b)
  | Some (undefinedValue _) => Ok VUndefined
  | Some (nullValue _) => Ok VNull
  | Some (arrayValue elements) =>
      match depth with
      | O => Throw BadMessageFormat
      | S depth' =>
          elements' ← (fix go (l : list bytes) : result error (list value) :=
                         match l with
                         | [] => Ok []
                         | x :: l' =>
                             v ← deserialize_depth hasLong depth' x;
                             vs ← go l'; Ok (v :: vs)
                         end) elements;
          Ok (VArray elements')
      end
  | Some (bytesValue b) => Ok (VUint8Array b)
  | Some (objectValue _) | Some (optionalValue _) => Throw NotModelled
  | None => Throw BadMessageFormat
  end.

Definition deserialize (hasLong : bool) (msg : bytes) : result error value :=
  deserialize_depth hasLong (length msg) msg.

(** *** CollabIDSerializer *)

(** A [CollabID] object; its [namePath] property may be [undefined]. *)
Record CollabID : Type := mkCollabID { namePath : option (list string) }.

(** A JavaScript object whose properties are arrays of strings. *)
Abbreviation object := (gmap string (list string)).

(** [CollabIDMessage], the class that protobufjs generates for a message
    with one field, [repeated string namePath = 1]. The generated module
    is not part of the sources; serializers.ts is written against it,
    creating the message from [{ namePath: ... }] and reading
    [decoded.namePath], so the field carries that name (the copy of
    serializers.proto next to it calls field 1 [collabIDPath]; the name
    of a field is not on the wire). The generated constructor sets
    [namePath] to an empty array and then copies every property of its
    argument that is not [null] or [undefined]; [encode] writes each
    element as a length-delimited field 1, and [decode] appends each
    field 1 it reads to [namePath]. *)
Definition CollabIDMessage_create (properties : object) : object :=
  properties ∪ {[ "namePath" := [] ]}.

Definition CollabIDMessage_encode (m : object) : bytes :=
  flat_map (λ s, tag 1 2 ++ string_ s) (default [] (m !! "namePath")).

Definition CollabIDMessage_field (n w : Z) (buf : bytes) (m : object)
    : option (result Wire.error (object * bytes)) :=
  if n =? 1 then
    Some ('(s, rest) ← read_string buf;
          Ok (<["namePath" := default [] (m !! "namePath") ++ [s]]> m,
              rest))
  else None.

Definition CollabIDMessage_decode (buf : bytes) : result Wire.error object :=
  Wire.decode CollabIDMessage_field {[ "namePath" := [] ]} buf.

(** [{ namePath: value.namePath }] *)
Definition object_of_CollabID (value : CollabID) : object :=
  match namePath value with
  | Some path => {[ "namePath" := path ]}
  | None => ∅
  end.

(** A string whose length fits the 32-bit length prefix. *)
Definition shortString (s : string) : Prop :=
  Z.of_nat (length (string_to_bytes s)) < 2 ^ 32.

(** [CollabIDSerializer.serialize(value)] *)
Definition CollabID_serialize (value : CollabID) : bytes :=
  let message := CollabIDMessage_create (object_of_CollabID value) in
  CollabIDMessage_encode message.

(** [CollabIDSerializer.deserialize(message)] *)
Definition CollabID_deserialize (message : bytes) : result error CollabID :=
  decoded ← lift (CollabIDMessage_decode message);
  Ok {| namePath := decoded !! "namePath" |}.

End Serializers.

(** ** Concrete inputs *)

Module Examples.

(** A receiver that has never heard of replica [k], and a received
    clock that carries the entry [k ↦ 0]. *)
Definition R_absent : VectorClock.t :=
  {| VectorClock.uid := "r";
     VectorClock.vectorMap := <["s" := 0]> (<["r" := 0]> ∅) |}.
Definition T_absent : VectorClock.t :=
  {| VectorClock.uid := "s";
     VectorClock.vectorMap := <["k" := 0]> (<["s" := 1]> ∅) |}.

(** A receiver and a received clock on which [isready] holds. *)
Definition R_ready : VectorClock.t :=
  {| VectorClock.uid := "r";
     VectorClock.vectorMap := <["k" := 1]> (<["s" := 0]> (<["r" := 0]> ∅)) |}.
Definition T_ready : VectorClock.t :=
  {| VectorClock.uid := "s";
     VectorClock.vectorMap := <["k" := 1]> (<["s" := 1]> ∅) |}.

(** Two concurrent writes to a register of strings, made in the same
    millisecond by replicas [alice] and [bob]. *)
Definition differs (a b : string) : bool := negb (String.eqb a b).
Definition register0 : Lww.LwwState string := Lww.initialState "".
Definition tsAlice : CausalTimestamp :=
  {| getSender := "alice"; getSenderCounter := 1;
     asVectorClock := <["alice" := 1]> ∅; isLocal := false |}.
Definition tsBob : CausalTimestamp :=
  {| getSender := "bob"; getSenderCounter := 1;
     asVectorClock := <["bob" := 1]> ∅; isLocal := false |}.
Definition writeAlice : Lww.LwwMessage string :=
  {| Lww.msg_value := "A"; Lww.msg_time := 1700000000000 |}.
Definition writeBob : Lww.LwwMessage string :=
  {| Lww.msg_value := "B"; Lww.msg_time := 1700000000000 |}.

(** A set of string-valued children: a child is the ID of its creator,
    a message to the set is one octet, the create counter. *)
Definition newChild (creatorReplicaId : string) : string := creatorReplicaId.
Definition initChild (name : string) (child : string) : string := child.
Definition childReceive (child : string) (targetPath : list string)
    (timestamp : CausalTimestamp) (message : bytes)
    : result YjsCrdtSet.error string := Ok child.
Definition decodeSetMessage (message : bytes)
    : result YjsCrdtSet.error YjsCrdtSet.YjsCrdtSetMessage :=
  match message with
  | [create] => Ok (YjsCrdtSet.Create create)
  | _ => Throw YjsCrdtSet.Malformed
  end.
Definition serializeName (p : string * Z) : bytes :=
  match Serializers.serialize
          (Serializers.VArray
             [Serializers.VString p.1;
              Serializers.VNumber (Serializers.Integer p.2)]) with
  | Ok b => b
  | Throw _ => []
  end.
Definition emptySet : YjsCrdtSet.t string :=
  {| YjsCrdtSet.children := ∅; YjsCrdtSet.childBeingAdded := None;
     YjsCrdtSet.ourCreatedCrdt := None; YjsCrdtSet.emitted := [] |}.
Definition tsLocal : CausalTimestamp :=
  {| getSender := "alice"; getSenderCounter := 2;
     asVectorClock := ∅; isLocal := true |}.

(** Two documents; runtimes are told apart by a number, a Collab is
    its runtime and its path from the root. *)
Definition collabRuntime (collab : nat * list string) : nat := collab.1.
Definition runtimeIdOf (runtime : nat) (collab : nat * list string)
    : result Doc.error (list string) := Ok collab.2.
Definition doc1 : Doc.AbstractDoc (CRuntime := nat) := {| Doc.runtime := 1%nat |}.
Definition ownCollab : nat * list string := (1%nat, ["text"]).
Definition foreignCollab : nat * list string := (2%nat, ["text"]).

End Examples.

(** ** More of src/src/vector_clock.ts *)

Module VectorClockMore.
Import VectorClock.

Definition nonneg_op (o : op) : Prop :=
  match o with
  | Increment => True
  | Merge vc => nonneg (vectorMap vc)
  | SetEntry _ clockValue => 0 <= clockValue
  end.

Definition isSetEntry (o : op) : bool :=
  match o with
  | SetEntry _ _ => true
  | _ => false
  end.

End VectorClockMore.

(** ** More of LwwRegisterBase and LwwState *)

Module LwwMore.
Import Lww.

Section Register.
Context {T : Type}.
Variable differs : T → T → bool.

(** [LwwState.resetLocalState()] *)
Definition resetLocalState (state : LwwState T) : LwwState T :=
  {| value := initialValue state; initialValue := initialValue state;
     sender := None; counter := -1; time := None |}.

(** [LwwRegister.isInInitialState()]: [state.sender === null] *)
Definition isInInitialState (state : LwwState T) : bool :=
  bool_decide (sender state = None).

(** The writes a replica receives, in the order of delivery. *)
Definition receiveAll (state : LwwState T)
    (writes : list (CausalTimestamp * LwwMessage T)) : LwwState T :=
  foldl (λ st w, after differs st w.1 w.2) state writes.

(** The state that stores the write [(timestamp, decoded)]. *)
Definition stores (state : LwwState T) (w : CausalTimestamp * LwwMessage T)
    : Prop :=
  value state = msg_value w.2 ∧
  sender state = Some (getSender w.1) ∧
  counter state = getSenderCounter w.1 ∧
  time state = Some (msg_time w.2).

End Register.
End LwwMore.

(** ** src/client/src/crdts/basic_crdts.ts: Counter *)

Module Counter.

(** [CounterState]: four records from sender IDs to numbers. *)
Record CounterState : Type := mkState {
  plusP : gmap string Z;
  plusN : gmap string Z;
  minusP : gmap string Z;
  minusN : gmap string Z
}.

(** [new CounterState()] *)
Definition emptyState : CounterState :=
  {| plusP := ∅; plusN := ∅; minusP := ∅; minusN := ∅ |}.

(** The decoded [CounterResettableMessage]; [decoded.data] names the
    member of the oneof that is set, if any. *)
Inductive CounterResettableMessage : Type :=
| toAdd (toAdd : Z)
| toReset (plusReset minusReset : gmap string Z)
| dataUnset.

Inductive event : Type :=
| Add (timestamp : CausalTimestamp) (valueAdded : Z)
| Reset (timestamp : CausalTimestamp).

Inductive error : Type :=
| BadData.

(** One iteration of the loop of the private method [merge]; [v] is
    [source[k]] for the key being visited. *)
Definition merge_body (k : string) (v : Z) (target : gmap string Z)
    : gmap string Z :=
  match target !! k with
  | None => <[k := v]> target
  | Some mine => if mine <? v then <[k := v]> target else target
  end.

(** [merge(target, source)] *)
Definition merge (target source : gmap string Z) : gmap string Z :=
  map_fold merge_body target source.

(** [addValues(record)] *)
Definition addValues (record : gmap string Z) : Z :=
  map_fold (λ _ value ans, ans + value) 0 record.

(** [get value()] *)
Definition value (initialValue : Z) (state : CounterState) : Z :=
  initialValue + addValues (plusP state) - addValues (plusN state)
  - addValues (minusP state) + addValues (minusN state).

(** [receive(timestamp, message)], on the decoded message: the new state
    and the event emitted. *)
Definition receive (state : CounterState) (timestamp : CausalTimestamp)
    (decoded : CounterResettableMessage) : result error (CounterState * event) :=
  match decoded with
  | toAdd n =>
      if 0 <? n then
        let current := default 0 (plusP state !! getSender timestamp) in
        Ok ({| plusP := <[getSender timestamp := current + n]> (plusP state);
               plusN := plusN state;
               minusP := minusP state;
               minusN := minusN state |},
            Add timestamp n)
      else
        let current := default 0 (minusP state !! getSender timestamp) in
        Ok ({| plusP := plusP state;
               plusN := plusN state;
               minusP := <[getSender timestamp := current - n]> (minusP state);
               minusN := minusN state |},
            Add timestamp n)
  | toReset plusReset minusReset =>
      Ok ({| plusP := plusP state;
             plusN := merge (plusN state) plusReset;
             minusP := minusP state;
             minusN := merge (minusN state) minusReset |},
          Reset timestamp)
  | dataUnset => Throw BadData
  end.

(** The message [add(toAdd)] sends, if any. *)
Definition add (n : Z) : option CounterResettableMessage :=
  if negb (n =? 0) then Some (toAdd n) else None.



(** The state after a sent message, if any, has been received. *)
Definition deliver (state : CounterState) (timestamp : CausalTimestamp)
    (message : option CounterResettableMessage) : CounterState :=
  match message with
  | None => state
  | Some decoded =>
      match receive state timestamp decoded with
      | Ok (state', _) => state'
      | Throw _ => state
      end
  end.


End Counter.

(** ** src/client/src/crdts/basic_crdts.ts: GSet *)

Module GSet.
Section GSet_.
(** The elements; a JavaScript [Set] tells them apart by value. *)
Context {T : Type} `{Countable T}.

Inductive event : Type :=
| SetAdd (timestamp : CausalTimestamp) (valueAdded : T).

(** [has(value)] *)
Definition has (state : gset T) (value : T) : bool :=
  bool_decide (value ∈ state).

(** The element [add(value)] sends, if any. *)
Definition add (state : gset T) (value : T) : option T :=
  if negb (has state value) then Some value else None.

(** [receive(timestamp, message)], on the deserialized element: the new
    state, the returned flag and the event emitted, if any. *)
Definition receive (state : gset T) (timestamp : CausalTimestamp) (value : T)
    : gset T * bool * option event :=
  if negb (has state value)
  then ({[ value ]} ∪ state, true, Some (SetAdd timestamp value))
  else (state, false, None).
End GSet_.
End GSet.

(** ** src/client/src/crdts/basic_crdts.ts: MultiValueRegister *)

Module Mvr.

Inductive error : Type :=
| BadData.

Section Register.
Context {T : Type} `{EqDecision T}.

(** [MvrEntry] *)
Record MvrEntry : Type := mkEntry {
  value : T;
  sender : string;
  counter : Z
}.

(** The decoded [MvrMessage], its value already deserialized. *)
Inductive MvrMessage : Type :=
| Value (v : T)
| Reset
| dataUnset.

Inductive event : Type :=
| MvrEvent (timestamp : CausalTimestamp) (valueAdded : T) (valuesRemoved : list T)
| ResetEvent (timestamp : CausalTimestamp).

(** [set.add(x)] on a [Set] kept as the list of its elements in
    insertion order. *)
Definition set_add (x : T) (set : list T) : list T :=
  if decide (x ∈ set) then set else set ++ [x].

(** The test of the loop of [receive]:
    [vcEntry !== undefined && vcEntry >= entry.counter]. *)
Definition overwritten (vc : gmap string Z) (entry : MvrEntry) : bool :=
  match vc !! sender entry with
  | Some vcEntry => counter entry <=? vcEntry
  | None => false
  end.

(** [receive(timestamp, message)]. The state is the [Set] of entries in
    insertion order; every entry is an object of its own. The entries
    are deleted before [decoded.data] is looked at, so the state is
    returned also when the call throws. The flag and the event are those
    of the [return] reached: [removed.entries().next().value] is the
    pair [[v, v]] of the first element of [removed], an array, which is
    never [===] to [value]. *)
Definition receive (state : list MvrEntry) (timestamp : CausalTimestamp)
    (decoded : MvrMessage)
    : list MvrEntry * result error (bool * option event) :=
  let vc := asVectorClock timestamp in
  let removed :=
    foldl (λ removed entry, set_add (value entry) removed) []
          (filter (λ entry, overwritten vc entry = true) state) in
  let state := filter (λ entry, overwritten vc entry = false) state in
  match decoded with
  | Value v =>
      let state := state ++ [{| value := v;
                                sender := getSender timestamp;
                                counter := getSenderCounter timestamp |}] in
      if (length removed =? 1)%nat && false
      then (state, Ok (false, None))
      else (state, Ok (true, Some (MvrEvent timestamp v removed)))
  | Reset =>
      (state, Ok ((length removed =? 0)%nat, Some (ResetEvent timestamp)))
  | dataUnset => (state, Throw BadData)
  end.

(** [get valueSet()] *)
Definition valueSet (state : list MvrEntry) : list T :=
  foldl (λ values entry, set_add (value entry) values) [] state.

(** The entry a write adds. *)
Definition entryOf (timestamp : CausalTimestamp) (v : T) : MvrEntry :=
  {| value := v; sender := getSender timestamp;
     counter := getSenderCounter timestamp |}.

End Register.

Arguments MvrEntry T : clear implicits.
Arguments MvrMessage T : clear implicits.
Arguments event T : clear implicits.

End Mvr.

(** ** More of src/client/src/crdt/set/yjs_crdt_sets.ts *)

Module YjsCrdtSetMore.
Import YjsCrdtSet.
Section Set_.
Context {C : Type}.

(** [canGc()]: [this.children.size === 0] *)
Definition canGc (this : t C) : bool :=
  bool_decide (size (children this) = 0%nat).

End Set_.
End YjsCrdtSetMore.

(** ** The array arm of the default serializer *)

Module DefaultSerializerMore.
Import Wire Serializers.

(** The loop of the array arm of [serialize]. *)
Definition serialize_elements : list value → result error (list (list Z)) :=
  fix go (l : list value) : result error (list (list Z)) :=
    match l with
    | [] => Ok []
    | x :: l' => b ← serialize x; bs ← go l'; Ok (b :: bs)
    end.

(** The loop of the array arm of [deserialize]. *)
Definition deserialize_elements (hasLong : bool) (depth : nat)
    : list (list Z) → result error (list value) :=
  fix go (l : list (list Z)) : result error (list value) :=
    match l with
    | [] => Ok []
    | x :: l' =>
        v ← deserialize_depth hasLong depth x; vs ← go l'; Ok (v :: vs)
    end.

(** No part of the value is a Collab, an object of an unsupported class
    or a value of an unsupported type. *)
Fixpoint serializable (v : value) : bool :=
  match v with
  | VArray elements => forallb serializable elements
  | VCollab | VInstance _ | VOther _ => false
  | _ => true
  end.

(** A number of the model that is a double: its bit pattern has 64
    bits and denotes it. *)
Definition isDouble (n : number) : Prop :=
  0 <= float64_bits n < 2 ^ 64 ∧ number_of_bits (float64_bits n) = n.

(** The values [serialize] accepts, their numbers being safe integers
    or doubles. *)
Fixpoint supported (v : value) : Prop :=
  match v with
  | VNumber n => isSafeInteger n = true ∨ isDouble n
  | VArray elements => foldr (λ x P, supported x ∧ P) True elements
  | VCollab | VInstance _ | VOther _ => False
  | _ => True
  end.

End DefaultSerializerMore.

(** ** src/core/src/util/serializers.ts: PairSerializer *)

Module MoreSerializers.
Import Wire Serializers.

(** What the serializers of this section throw: an error of the
    default serializer, or the [ProtocolError] of a generated decoder
    that misses a required field. *)
Inductive error : Type :=
| SerializerError (e : Serializers.error)
| MissingRequired (fieldName : string).

Definition lift_serializer {A} (r : result Serializers.error A)
    : result error A :=
  match r with
  | Ok a => Ok a
  | Throw e => Throw (SerializerError e)
  end.

(** The interface [Serializer<T>]; both methods may throw. *)
Record Serializer (T : Type) : Type := mkSerializer {
  serialize : T → result error (list Z);
  deserialize : list Z → result error T
}.
Arguments serialize {T} _ _.
Arguments deserialize {T} _ _.

(** [DefaultSerializer.getInstance()] *)
Definition DefaultSerializer (hasLong : bool) : Serializer value :=
  {| serialize := λ v, lift_serializer (Serializers.serialize v);
     deserialize := λ message,
       lift_serializer (Serializers.deserialize hasLong message) |}.

(** [PairSerializerMessage], declared as
    [message PairSerializerMessage { required bytes one = 1; required bytes two = 2; }].
    A decoded message has the properties that were read. *)
Record PairSerializerMessage : Type := mkPair {
  one : option (list Z);
  two : option (list Z)
}.

(** [PairSerializerMessage.encode(message).finish()] for a message with
    both properties. *)
Definition PairSerializerMessage_encode (one two : list Z) : list Z :=
  tag 1 2 ++ bytes_ one ++ tag 2 2 ++ bytes_ two.

Definition PairSerializerMessage_field (n w : Z) (buf : list Z)
    (m : PairSerializerMessage)
    : option (result Wire.error (PairSerializerMessage * list Z)) :=
  if n =? 1 then
    Some ('(b, rest) ← read_bytes buf; Ok ({| one := Some b; two := two m |}, rest))
  else if n =? 2 then
    Some ('(b, rest) ← read_bytes buf; Ok ({| one := one m; two := Some b |}, rest))
  else None.

(** [PairSerializerMessage.decode(message)]: the generated decoder of a
    message with required fields throws when one is missing. *)
Definition PairSerializerMessage_decode (buf : list Z)
    : result error (list Z * list Z) :=
  m ← lift_serializer
        (lift (Wire.decode PairSerializerMessage_field
                           {| one := None; two := None |} buf));
  match one m with
  | None => Throw (MissingRequired "one")
  | Some a =>
      match two m with
      | None => Throw (MissingRequired "two")
      | Some b => Ok (a, b)
      end
  end.

(** [PairSerializer] *)
Definition PairSerializer {T U} (oneSerializer : Serializer T)
    (twoSerializer : Serializer U) : Serializer (T * U) :=
  {| serialize := λ value,
       a ← serialize oneSerializer value.1;
       b ← serialize twoSerializer value.2;
       Ok (PairSerializerMessage_encode a b);
     deserialize := λ message,
       '(a, b) ← PairSerializerMessage_decode message;
       x ← deserialize oneSerializer a;
       y ← deserialize twoSerializer b;
       Ok (x, y) |}.

(** [serializer] writes [x] as a message of less than 2^32 octets and
    reads that message back as [x]. *)
Definition roundTrips {T} (serializer : Serializer T) (x : T) : Prop :=
  ∃ message, serialize serializer x = Ok message ∧
             Z.of_nat (length message) < 2 ^ 32 ∧
             deserialize serializer message = Ok x.

End MoreSerializers.

(** ** BooleanSerializer and the aggregators of CBoolean *)

Module CBoolean.

(** [BooleanSerializer.TRUE = new Uint8Array()],
    [BooleanSerializer.FALSE = new Uint8Array(1)] *)
Definition TRUE : list Z := [].
Definition FALSE : list Z := [0].

Definition serialize (value : bool) : list Z := if value then TRUE else FALSE.

Definition deserialize (message : list Z) : bool := (length message =? 0)%nat.

(** An item given to an aggregator: a value and the write it is from. *)
Record item : Type := mkItem {
  value : bool;
  sender : string;
  senderCounter : Z
}.

(** [items.find(predicate)]: the first item that satisfies it, or
    [undefined]. *)
Definition find (predicate : item → bool) (items : list item) : option item :=
  List.find predicate items.

(** [TrueWinsAggregator.aggregate(items)] *)
Definition TrueWins (items : list item) : bool :=
  match find (λ item, value item) items with
  | Some _ => true
  | None => false
  end.

(** [FalseWinsAggregator.aggregate(items)] *)
Definition FalseWins (items : list item) : bool :=
  match find (λ item, negb (value item)) items with
  | Some _ => false
  | None => true
  end.

(** The aggregator the constructor of [CBoolean] picks for [winner]. *)
Definition aggregator (winner : bool) : list item → bool :=
  if winner then TrueWins else FalseWins.

End CBoolean.

(** ** More concrete inputs *)

Module MoreExamples.

(** The clock replica [s] holds before it sends the message stamped
    [Examples.T_ready], and some calls on a clock. *)
Definition S_before : VectorClock.t :=
  {| VectorClock.uid := "s";
     VectorClock.vectorMap := <["k" := 1]> (<["s" := 0]> ∅) |}.
Definition someOps : list VectorClock.op :=
  [VectorClock.Increment; VectorClock.Merge Examples.T_ready;
   VectorClock.SetEntry "z" 3].
Definition growingOps : list VectorClock.op :=
  [VectorClock.Increment; VectorClock.Merge Examples.T_ready].

(** A register that stores [alice]'s write, and a write of [bob] who has
    seen it, stamped with an earlier wall-clock time. *)
Definition registerAlice : Lww.LwwState string :=
  {| Lww.value := "A"; Lww.initialValue := "";
     Lww.sender := Some "alice"; Lww.counter := 1;
     Lww.time := Some 1700000000000 |}.
Definition tsBobAfter : CausalTimestamp :=
  {| getSender := "bob"; getSenderCounter := 1;
     asVectorClock := <["bob" := 1]> (<["alice" := 1]> ∅); isLocal := false |}.
Definition writeBobEarlier : Lww.LwwMessage string :=
  {| Lww.msg_value := "B"; Lww.msg_time := 1600000000000 |}.
Definition twoWrites : list (CausalTimestamp * Lww.LwwMessage string) :=
  [(Examples.tsAlice, Examples.writeAlice); (Examples.tsBob, Examples.writeBob)].


(** A multi-value register that holds [alice]'s value. *)
Definition mvrState : list (Mvr.MvrEntry string) :=
  [{| Mvr.value := "A"; Mvr.sender := "alice"; Mvr.counter := 1 |}].

(** Messages to a set: the octet 0 and a create counter, or the octet 1
    and the name of the child to delete. *)
Definition decodeSetMessage2 (message : list Z)
    : result YjsCrdtSet.error YjsCrdtSet.YjsCrdtSetMessage :=
  match message with
  | [0; create] => Ok (YjsCrdtSet.Create create)
  | 1 :: name => Ok (YjsCrdtSet.Delete (Wire.bytes_to_string name))
  | _ => Throw YjsCrdtSet.Malformed
  end.
Definition aliceChild : string :=
  YjsCrdtSet.childName Examples.serializeName Wire.bytes_to_string "alice" 7.
Definition deleteAliceChild : list Z := 1 :: Wire.string_to_bytes aliceChild.
Definition setWithChild : YjsCrdtSet.t string :=
  {| YjsCrdtSet.children := <["c1" := "alice"]> ∅;
     YjsCrdtSet.childBeingAdded := None;
     YjsCrdtSet.ourCreatedCrdt := None; YjsCrdtSet.emitted := [] |}.
Definition tsRemote : CausalTimestamp :=
  {| getSender := "alice"; getSenderCounter := 3;
     asVectorClock := ∅; isLocal := false |}.

(** A nested array. *)
Definition nested : Serializers.value :=
  Serializers.VArray
    [Serializers.VString "ab";
     Serializers.VNumber (Serializers.Integer 300);
     Serializers.VArray [Serializers.VNull; Serializers.VBoolean true]].

(** Items of a boolean register, in two orders. *)
Definition items1 : list CBoolean.item :=
  [{| CBoolean.value := false; CBoolean.sender := "alice";
      CBoolean.senderCounter := 1 |};
   {| CBoolean.value := true; CBoolean.sender := "bob";
      CBoolean.senderCounter := 1 |}].
Definition items2 : list CBoolean.item :=
  [{| CBoolean.value := true; CBoolean.sender := "bob";
      CBoolean.senderCounter := 1 |};
   {| CBoolean.value := false; CBoolean.sender := "alice";
      CBoolean.senderCounter := 1 |}].

End MoreExamples.

(** ** Inputs on which deliveries or merges go another way *)

Module Interleavings.


(** A clock whose own entry was set below zero with [setEntry], and a
    clock of another replica after one [increment]. *)
Definition clockBelowZero : VectorClock.t :=
  VectorClock.setEntry (VectorClock.new "a") "a" (-3).
Definition clockOfB : VectorClock.t :=
  VectorClock.increment (VectorClock.new "b").

End Interleavings.

(** * Properties *)

(** ** Vector clocks *)

Module VectorClockFacts.
Import VectorClock Examples.

Lemma Map_has_true {A} (m : gmap string A) k :
  Map_has m k = true ↔ is_Some (m !! k).
Proof. unfold Map_has. apply bool_decide_eq_true. Qed.

Lemma Map_get_Some m k n : m !! k = Some n → Map_get m k = JSnumber n.
Proof. unfold Map_get. by intros ->. Qed.

Lemma Map_get_None m k : m !! k = None → Map_get m k = JSundefined.
Proof. unfold Map_get. by intros ->. Qed.

(** The loop variable [ready] is only ever lowered. *)
Lemma isready_body_and R T s id ready :
  isready_body R T s id ready = isready_body R T s id true && ready.
Proof.
  unfold isready_body.
  destruct (bool_decide (id ≠ s) && negb (Map_has R id)); [done|].
  by destruct (bool_decide (id ≠ s) && js_lt (Map_get R id) (Map_get T id)).
Qed.

(** A key passes the loop body iff it is the sender's or is covered. *)
Lemma isready_body_true R T s k v :
  T !! k = Some v →
  isready_body R T s k true = true ↔
  (k = s ∨ ∃ r, R !! k = Some r ∧ r >= v).
Proof.
  intros HT. unfold isready_body, Map_has.
  rewrite (Map_get_Some T k v HT).
  destruct (decide (k = s)) as [->|Hne].
  - rewrite (bool_decide_eq_false_2 (s ≠ s)) by (intros H; by apply H).
    simpl. split; [by left|done].
  - rewrite (bool_decide_eq_true_2 (k ≠ s)) by done. simpl.
    unfold Map_get. destruct (R !! k) as [r|] eqn:HR.
    + rewrite bool_decide_eq_true_2 by eauto. simpl.
      destruct (Z.ltb_spec r v).
      * split; [done|]. intros [?|(r' & ? & ?)]; [done|]. simplify_eq; lia.
      * split; [|done]. intros _. right. exists r. split; [done|lia].
    + rewrite bool_decide_eq_false_2 by (by intros [? ?]). simpl.
      split; [done|]. intros [?|(r' & ? & ?)]; done.
Qed.

Lemma isready_fold_true R T s (m : gmap string Z) :
  map_fold (λ id _ ready, isready_body R T s id ready) true m = true ↔
  ∀ k, is_Some (m !! k) → isready_body R T s k true = true.
Proof.
  apply (map_fold_weak_ind (λ r m',
    r = true ↔ ∀ k, is_Some (m' !! k) → isready_body R T s k true = true)).
  - split; [|done]. intros _ k [x Hx]. by rewrite lookup_empty in Hx.
  - intros i x m' r Hi IH. rewrite isready_body_and, andb_true_iff, IH.
    split.
    + intros [Hb Hall] k Hk. destruct (decide (k = i)) as [->|Hne]; [done|].
      apply Hall. by rewrite lookup_insert_ne in Hk.
    + intros Hall. split.
      * apply Hall. rewrite lookup_insert_eq. eauto.
      * intros k Hk. apply Hall.
        destruct (decide (i = k)) as [->|Hne].
        -- rewrite lookup_insert_eq. eauto.
        -- by rewrite lookup_insert_ne.
Qed.

Lemma isready_loop_true R T s :
  isready_loop R T s = true ↔ others_covered R T s.
Proof.
  unfold isready_loop, others_covered. rewrite isready_fold_true. split.
  - intros H k v Hne Hk.
    pose proof (H k (ex_intro _ v Hk)) as Hb.
    destruct (proj1 (isready_body_true R T s k v Hk) Hb) as [?|?]; done.
  - intros H k [v Hk]. apply (isready_body_true R T s k v Hk).
    destruct (decide (k = s)); [by left|right; eauto].
Qed.

(** What [isready] computes, on every pair of clocks: the receiver HAS
    an entry for the sender, it equals the sender's own entry minus one,
    and every other key of the received clock is covered. *)
Lemma isready_true (this vc : t) :
  isready this vc = true ↔
  (∃ r c, vectorMap this !! uid vc = Some r ∧
          vectorMap vc !! uid vc = Some c ∧ r = c - 1) ∧
  others_covered (vectorMap this) (vectorMap vc) (uid vc).
Proof.
  unfold isready, getUid, getVectorMap.
  assert (strict_eq (Map_get (vectorMap this) (uid vc)) JSnull = false) as ->.
  { unfold Map_get. by destruct (vectorMap this !! uid vc). }
  simpl. unfold Map_get at 1 2.
  destruct (vectorMap this !! uid vc) as [r|] eqn:HR;
    destruct (vectorMap vc !! uid vc) as [c|] eqn:HT; simpl.
  - destruct (Z.eqb_spec r (c - 1)) as [->|Hne].
    + rewrite isready_loop_true. split; [|by intros [_ ?]].
      intros H. split; [|done]. by exists (c - 1), c.
    + split; [done|]. intros [(r' & c' & ? & ? & ?) _]. simplify_eq.
  - split; [done|]. intros [(r' & c' & ? & ? & ?) _]. simplify_eq.
  - split; [done|]. intros [(r' & c' & ? & ? & ?) _]. simplify_eq.
  - split; [done|]. intros [(r' & c' & ? & ? & ?) _]. simplify_eq.
Qed.

(** A message from a sender the receiver has no entry for is not ready,
    whatever its counter: [get] yields [undefined], which is not [null],
    so the comparison with [c - 1] is made and fails; the branch that
    runs the loop alone is never taken. *)
Lemma isready_unknown_sender (this vc : t) :
  vectorMap this !! uid vc = None → isready this vc = false.
Proof.
  intros Hnone. destruct (isready this vc) eqn:Hr; [|done].
  apply isready_true in Hr as [(r & c & Hr & _) _]. congruence.
Qed.

Example isready_first_message :
  isready (new "r") {| uid := "s"; vectorMap := <["s" := 1]> ∅ |} = false.
Proof. by vm_compute. Qed.

Example isready_in_order : isready R_ready T_ready = true.
Proof. by vm_compute. Qed.

(** C1, as amended. For a receiver [R] that has an entry [r] for the
    sender and a received clock [T] of sender [s = uid T] with counter
    [c], [isready] returns [true] iff [r = c - 1] and every other key of
    [T] is PRESENT in [R] with an entry at least [T]'s. *)
Theorem isready_iff_present (R T : t) (r c : Z) :
  vectorMap R !! uid T = Some r →
  vectorMap T !! uid T = Some c →
  isready R T = true ↔
  (r = c - 1 ∧ others_covered (vectorMap R) (vectorMap T) (uid T)).
Proof.
  intros HR HT. rewrite isready_true. split.
  - intros [(r' & c' & ? & ? & ?) ?]. simplify_eq. done.
  - intros [-> ?]. split; [|done]. by exists (c - 1), c.
Qed.

Lemma isready_iff_present_witness :
  isready R_ready T_ready = true ↔
  (0 = 1 - 1 ∧
   others_covered (vectorMap R_ready) (vectorMap T_ready) (uid T_ready)).
Proof.
  apply (isready_iff_present R_ready T_ready 0 1); reflexivity.
Defined.

(** C1, as stated, fails: with absent entries counting as 0 the
    specification's predicate holds of [R_absent] and [T_absent], yet
    [isready] returns [false] because [R_absent] has no entry for [k]. *)
Lemma isready_absent_key_counterexample :
  ¬ (isready R_absent T_absent = true ↔
     ready_spec (vectorMap R_absent) (vectorMap T_absent) "s" 1).
Proof.
  intros [_ H].
  assert (isready R_absent T_absent = false) as Hf by (by vm_compute).
  rewrite H in Hf; [done|]. split; [reflexivity|].
  intros k v Hne Hk. unfold T_absent, R_absent in *. simpl in *.
  destruct (decide (k = "k")) as [->|Hk'].
  - rewrite lookup_insert_eq in Hk. simplify_eq. by vm_compute.
  - rewrite lookup_insert_ne, lookup_insert_ne, lookup_empty in Hk by done.
    done.
Qed.

(** The loop of [merge] computes the key-wise maximum, an entry of one
    side only being kept as it is. *)
Lemma merge_fold_lookup (m0 other : gmap string Z) k :
  map_fold merge_body m0 other !! k =
  match m0 !! k, other !! k with
  | Some a, Some b => Some (Z.max a b)
  | Some a, None => Some a
  | None, Some b => Some b
  | None, None => None
  end.
Proof.
  revert k.
  apply (map_fold_weak_ind (λ r m, ∀ k, r !! k =
    match m0 !! k, m !! k with
    | Some a, Some b => Some (Z.max a b)
    | Some a, None => Some a
    | None, Some b => Some b
    | None, None => None
    end)).
  - intros k. rewrite lookup_empty. by destruct (m0 !! k).
  - intros i x m r Hi IH k. unfold merge_body.
    pose proof (IH i) as IHi. rewrite Hi in IHi.
    destruct (decide (i = k)) as [->|Hne].
    + rewrite lookup_insert_eq.
      destruct (m0 !! k) as [a|] eqn:Hm0; rewrite IHi;
        by rewrite lookup_insert_eq.
    + rewrite (lookup_insert_ne m) by done. rewrite <- (IH k).
      destruct (r !! i); by rewrite lookup_insert_ne.
Qed.

Lemma merge_keeps_keys (this vc : t) k :
  is_Some (vectorMap this !! k) →
  is_Some (vectorMap (merge this vc) !! k).
Proof.
  intros [a Ha]. unfold merge, getVectorMap. simpl.
  rewrite merge_fold_lookup, Ha. destruct (vectorMap vc !! k); eauto.
Qed.

Lemma merge_uid this vc : uid (merge this vc) = uid this.
Proof. done. Qed.

Lemma increment_uid this : uid (increment this) = uid this.
Proof. unfold increment. by destruct (vectorMap this !! uid this). Qed.

Lemma increment_keeps_keys this k :
  is_Some (vectorMap this !! k) → is_Some (vectorMap (increment this) !! k).
Proof.
  intros Hk. unfold increment.
  destruct (vectorMap this !! uid this) as [old|]; [|done]. simpl.
  destruct (decide (uid this = k)) as [->|Hne].
  - rewrite lookup_insert_eq. eauto.
  - by rewrite lookup_insert_ne.
Qed.

Lemma setEntry_keeps_keys this someUid clockValue k :
  is_Some (vectorMap this !! k) →
  is_Some (vectorMap (setEntry this someUid clockValue) !! k).
Proof.
  intros Hk. unfold setEntry. simpl.
  destruct (decide (someUid = k)) as [->|Hne].
  - rewrite lookup_insert_eq. eauto.
  - by rewrite lookup_insert_ne.
Qed.

(** No method removes a key or changes the clock's uid. *)
Lemma step_keeps this o k :
  is_Some (vectorMap this !! k) →
  uid (step this o) = uid this ∧ is_Some (vectorMap (step this o) !! k).
Proof.
  intros Hk. destruct o as [|vc|someUid clockValue]; simpl.
  - split; [apply increment_uid|by apply increment_keeps_keys].
  - split; [done|by apply merge_keeps_keys].
  - split; [done|by apply setEntry_keeps_keys].
Qed.

Lemma run_keeps ops : ∀ this k,
  is_Some (vectorMap this !! k) →
  uid (run this ops) = uid this ∧ is_Some (vectorMap (run this ops) !! k).
Proof.
  unfold run. induction ops as [|o ops IH]; intros this k Hk; [done|].
  simpl. destruct (step_keeps this o k Hk) as [Hu Hs].
  destruct (IH (step this o) k Hs) as [Hu' Hs']. split; [congruence|done].
Qed.

Example merge_example :
  vectorMap (merge (new "aaa") (increment (new "bbb")))
  = <["bbb" := 1]> (<["aaa" := 0]> ∅).
Proof. by vm_compute. Qed.

(** C3, as amended. On clocks whose counters are not negative, after
    [merge(other)] the entry of every key present in either map is the
    maximum of the two previous entries (an absent entry counting as
    0), and no key present before the merge is removed. *)
Theorem merge_elementwise_max (this vc : t) :
  nonneg (vectorMap this) → nonneg (vectorMap vc) →
  (∀ k, is_Some (vectorMap this !! k) ∨ is_Some (vectorMap vc !! k) →
        vectorMap (merge this vc) !! k =
        Some (Z.max (entry (vectorMap this) k) (entry (vectorMap vc) k))) ∧
  (∀ k, is_Some (vectorMap this !! k) →
        is_Some (vectorMap (merge this vc) !! k)).
Proof.
  intros Hthis Hvc. split; [|intros k; apply merge_keeps_keys].
  intros k Hk. unfold merge, getVectorMap, entry. simpl.
  rewrite merge_fold_lookup.
  destruct (vectorMap this !! k) as [a|] eqn:Ha;
    destruct (vectorMap vc !! k) as [b|] eqn:Hb; simpl.
  - done.
  - f_equal. pose proof (Hthis k a Ha). lia.
  - f_equal. pose proof (Hvc k b Hb). lia.
  - destruct Hk as [[? ?]|[? ?]]; done.
Qed.

Lemma nonneg_R_ready : nonneg (vectorMap R_ready).
Proof.
  intros k v. unfold R_ready. simpl.
  rewrite !lookup_insert. repeat case_decide; intros; simplify_eq; lia.
Qed.

Lemma nonneg_T_ready : nonneg (vectorMap T_ready).
Proof.
  intros k v. unfold T_ready. simpl.
  rewrite !lookup_insert. repeat case_decide; intros; simplify_eq; lia.
Qed.

Lemma merge_elementwise_max_witness :
  (∀ k, is_Some (vectorMap R_ready !! k) ∨ is_Some (vectorMap T_ready !! k) →
        vectorMap (merge R_ready T_ready) !! k =
        Some (Z.max (entry (vectorMap R_ready) k)
                    (entry (vectorMap T_ready) k))) ∧
  (∀ k, is_Some (vectorMap R_ready !! k) →
        is_Some (vectorMap (merge R_ready T_ready) !! k)).
Proof.
  apply (merge_elementwise_max R_ready T_ready).
  - exact nonneg_R_ready.
  - exact nonneg_T_ready.
Defined.

(** C3, as stated, fails on a clock with a negative entry: the key [a]
    is absent from [clockOfB], and [merge] keeps the entry -3 of
    [clockBelowZero], which is not the maximum of -3 and 0. *)
Lemma merge_negative_entry_counterexample :
  is_Some (vectorMap Interleavings.clockBelowZero !! "a") ∧
  vectorMap Interleavings.clockOfB !! "a" = None ∧
  vectorMap (merge Interleavings.clockBelowZero Interleavings.clockOfB) !! "a"
  = Some (-3) ∧
  vectorMap (merge Interleavings.clockBelowZero Interleavings.clockOfB) !! "a"
  ≠ Some (Z.max (entry (vectorMap Interleavings.clockBelowZero) "a")
                (entry (vectorMap Interleavings.clockOfB) "a")).
Proof.
  split; [by eexists; vm_compute|]. split; [by vm_compute|].
  split; [by vm_compute|]. by vm_compute.
Qed.

(** C4. When the own-uid entry is present, [increment()] raises it by
    exactly 1, leaves the uid and every other entry as they were, and so
    lowers no entry. *)
Theorem increment_own_entry_only (this : t) (old : Z) :
  vectorMap this !! uid this = Some old →
  vectorMap (increment this) !! uid this = Some (old + 1) ∧
  (∀ k, k ≠ uid this →
        vectorMap (increment this) !! k = vectorMap this !! k) ∧
  (∀ k v, vectorMap this !! k = Some v →
          ∃ v', vectorMap (increment this) !! k = Some v' ∧ v <= v').
Proof.
  intros Hold. unfold increment. rewrite Hold. simpl.
  split; [by rewrite lookup_insert_eq|]. split.
  - intros k Hne. by rewrite lookup_insert_ne.
  - intros k v Hk. destruct (decide (uid this = k)) as [<-|Hne].
    + rewrite lookup_insert_eq. exists (old + 1). split; [done|].
      simplify_eq. lia.
    + rewrite lookup_insert_ne by done. exists v. split; [done|lia].
Qed.

Lemma increment_own_entry_only_witness :
  vectorMap (increment R_ready) !! uid R_ready = Some (0 + 1) ∧
  (∀ k, k ≠ uid R_ready →
        vectorMap (increment R_ready) !! k = vectorMap R_ready !! k) ∧
  (∀ k v, vectorMap R_ready !! k = Some v →
          ∃ v', vectorMap (increment R_ready) !! k = Some v' ∧ v <= v').
Proof. apply (increment_own_entry_only R_ready 0). reflexivity. Defined.

(** C9. Whatever sequence of [increment], [merge] and [setEntry] calls
    is run on a freshly constructed clock, the clock keeps its uid, its
    map has an entry for that uid, and [increment] then performs its
    update. *)
Theorem own_entry_invariant (replicaID : string) (ops : list op) :
  uid (run (new replicaID) ops) = replicaID ∧
  ∃ v, vectorMap (run (new replicaID) ops) !! replicaID = Some v ∧
       vectorMap (increment (run (new replicaID) ops)) !! replicaID
       = Some (v + 1).
Proof.
  destruct (run_keeps ops (new replicaID) replicaID) as [Hu [v Hv]].
  { unfold new. simpl. rewrite lookup_insert_eq. eauto. }
  simpl in Hu. split; [done|]. exists v. split; [done|].
  unfold increment. rewrite Hu, Hv. simpl. by rewrite lookup_insert_eq.
Qed.

End VectorClockFacts.

(** ** Last-writer-wins register *)

Module LwwFacts.
Import Lww.


Section Register.
Context {T : Type}.
Variable differs : T → T → bool.

Lemma after_overwrite (st : LwwState T) ts m :
  overwrite st ts m = true →
  after differs st ts m =
  {| value := msg_value m; initialValue := initialValue st;
     sender := Some (getSender ts); counter := getSenderCounter ts;
     time := Some (msg_time m) |}.
Proof.
  intros H. unfold after, receive. rewrite H.
  by destruct (differs (value st) (msg_value m)).
Qed.

Lemma after_keep (st : LwwState T) ts m :
  overwrite st ts m = false → after differs st ts m = st.
Proof. intros H. unfold after, receive. by rewrite H. Qed.

(** The first write a register receives is stored. *)
Lemma overwrite_initial (st : LwwState T) ts m :
  sender st = None → overwrite st ts m = true.
Proof. intros H. unfold overwrite, causallyGreater. by rewrite H. Qed.


(** A write made with knowledge of the stored one is stored, whatever
    its wall-clock time. *)
Lemma overwrite_causal (st : LwwState T) ts m :
  causallyGreater st ts = true → overwrite st ts m = true.
Proof. intros H. unfold overwrite. by rewrite H. Qed.


End Register.



(** The stored write of that register is [alice]'s first write, so the
    state is one a replica reaches. *)
Example registerAlice_reached :
  after Examples.differs Examples.register0
        Examples.tsAlice Examples.writeAlice
  = MoreExamples.registerAlice.
Proof. by vm_compute. Qed.

End LwwFacts.

(** ** Dynamic sets *)

Module YjsCrdtSetFacts.
Import YjsCrdtSet.

Section Set_.
Context {C : Type}.
Variable valueCrdtConstructor : string → C.
Variable init : string → C → C.
Variable child_receive :
  C → list string → CausalTimestamp → bytes → result error C.
Variable decode : bytes → result error YjsCrdtSetMessage.
Variable nameSerializer_serialize : string * Z → bytes.
Variable arrayAsString : bytes → string.

Local Abbreviation receiveInternal :=
  (receiveInternal valueCrdtConstructor init child_receive decode
                   nameSerializer_serialize arrayAsString).
Local Abbreviation childName :=
  (childName nameSerializer_serialize arrayAsString).

(** C5. A message routed to a child name that is not in the
    children map throws when the timestamp is local, and returns
    with the state unchanged when it is remote. *)
Theorem frozen_child_message (this : t C) (targetPath : list string)
    (name : string) (timestamp : CausalTimestamp) (message : bytes) :
  last targetPath = Some name →
  children this !! name = None →
  (isLocal timestamp = true →
   receiveInternal this targetPath timestamp message
   = Throw (FrozenChild name)) ∧
  (isLocal timestamp = false →
   receiveInternal this targetPath timestamp message = Ok this).
Proof.
  intros Hlast Hchild. unfold YjsCrdtSet.receiveInternal.
  rewrite Hlast, Hchild. split; by intros ->.
Qed.

(** A create message adds one child, under the name computed from
    the sender and the create counter, or throws when that name is
    taken. *)
Lemma receive_create (this : t C) (timestamp : CausalTimestamp)
    (message : bytes) (create : Z) :
  decode message = Ok (Create create) →
  let name := childName (getSender timestamp) create in
  (children this !! name = None →
   ∃ this', receiveInternal this [] timestamp message = Ok this' ∧
            children this'
            = <[name := init name (valueCrdtConstructor (getSender timestamp))]>
                (children this)) ∧
  (is_Some (children this !! name) →
   receiveInternal this [] timestamp message = Throw (DuplicateName name)).
Proof.
  intros Hdec name. unfold YjsCrdtSet.receiveInternal. simpl.
  rewrite Hdec. fold name. unfold Map_has. split.
  - intros Hfresh.
    rewrite bool_decide_eq_false_2 by (rewrite Hfresh; by intros [? ?]).
    eexists. split; [done|]. done.
  - intros Hdup. by rewrite bool_decide_eq_true_2.
Qed.

(** C6. The name given to the child of a create message is a
    function of the sender ID and the create counter alone: there is
    one name under which every replica that applies the message
    stores the new child. *)
Theorem create_name_deterministic (sender : string) (create : Z)
    (message : bytes) :
  decode message = Ok (Create create) →
  ∃ name,
    name = childName sender create ∧
    ∀ (replica : t C) (timestamp : CausalTimestamp),
      getSender timestamp = sender →
      children replica !! name = None →
      ∃ replica',
        receiveInternal replica [] timestamp message = Ok replica' ∧
        children replica'
        = <[name := init name (valueCrdtConstructor sender)]>
            (children replica).
Proof.
  intros Hdec. exists (childName sender create). split; [done|].
  intros replica timestamp <- Hfresh.
  by apply (receive_create replica timestamp message create Hdec).
Qed.

End Set_.

Lemma frozen_child_message_witness :
  (isLocal Examples.tsLocal = true →
   receiveInternal Examples.newChild Examples.initChild
     Examples.childReceive Examples.decodeSetMessage
     Examples.serializeName Wire.bytes_to_string
     Examples.emptySet ["gone"] Examples.tsLocal [7]
   = Throw (FrozenChild "gone")) ∧
  (isLocal Examples.tsLocal = false →
   receiveInternal Examples.newChild Examples.initChild
     Examples.childReceive Examples.decodeSetMessage
     Examples.serializeName Wire.bytes_to_string
     Examples.emptySet ["gone"] Examples.tsLocal [7]
   = Ok Examples.emptySet).
Proof.
  apply (frozen_child_message Examples.newChild Examples.initChild
           Examples.childReceive Examples.decodeSetMessage
           Examples.serializeName Wire.bytes_to_string
           Examples.emptySet ["gone"] "gone" Examples.tsLocal [7]).
  - reflexivity.
  - reflexivity.
Defined.

Lemma create_name_deterministic_witness :
  ∃ name,
    name = childName Examples.serializeName Wire.bytes_to_string "alice" 7 ∧
    ∀ (replica : t string) (timestamp : CausalTimestamp),
      getSender timestamp = "alice" →
      children replica !! name = None →
      ∃ replica',
        receiveInternal Examples.newChild Examples.initChild
          Examples.childReceive Examples.decodeSetMessage
          Examples.serializeName Wire.bytes_to_string
          replica [] timestamp [7] = Ok replica' ∧
        children replica'
        = <[name := Examples.initChild name (Examples.newChild "alice")]>
            (children replica).
Proof.
  apply (create_name_deterministic Examples.newChild Examples.initChild
           Examples.childReceive Examples.decodeSetMessage
           Examples.serializeName Wire.bytes_to_string "alice" 7 [7]).
  reflexivity.
Defined.

End YjsCrdtSetFacts.

(** ** Documents *)

Module DocFacts.
Import Doc.

Section AbstractDoc.
Context {CRuntime Collab CollabID : Type} `{EqDecision CRuntime}.
Variable collab_runtime : Collab → CRuntime.
Variable runtime_idOf : CRuntime → Collab → result error CollabID.

(** C8. [idOf] throws, and returns no ID, for a Collab whose runtime
    is not the document's; for a Collab of this document it returns
    what the runtime's [idOf] returns, adding no error of its own. *)
Theorem idOf_other_document_throws (this : AbstractDoc) (collab : Collab) :
  (collab_runtime collab ≠ runtime this →
   idOf collab_runtime runtime_idOf this collab = Throw OtherDocument) ∧
  (collab_runtime collab = runtime this →
   idOf collab_runtime runtime_idOf this collab
   = runtime_idOf (runtime this) collab ∧
   ∀ id, runtime_idOf (runtime this) collab = Ok id →
         idOf collab_runtime runtime_idOf this collab = Ok id).
Proof.
  unfold idOf. split.
  - intros Hne. by rewrite decide_True.
  - intros Heq. rewrite decide_False by (intros Hne; by apply Hne). done.
Qed.

End AbstractDoc.

Lemma idOf_other_document_throws_witness :
  idOf Examples.collabRuntime Examples.runtimeIdOf
       Examples.doc1 Examples.foreignCollab = Throw OtherDocument ∧
  idOf Examples.collabRuntime Examples.runtimeIdOf
       Examples.doc1 Examples.ownCollab = Ok ["text"].
Proof.
  split.
  - apply (idOf_other_document_throws Examples.collabRuntime
             Examples.runtimeIdOf Examples.doc1 Examples.foreignCollab).
    discriminate.
  - apply (idOf_other_document_throws Examples.collabRuntime
             Examples.runtimeIdOf Examples.doc1 Examples.ownCollab);
      reflexivity.
Defined.

End DocFacts.

(** ** The wire format *)

Module WireFacts.
Import Wire.

(** The octets of a varint but the last carry the continuation bit. *)
Lemma continuation_octet u :
  0 <= u → Z.lor (Z.land u 127) 128 = Z.land u 127 + 128.
Proof.
  intros Hu. symmetry. apply Z.add_nocarry_lor.
  rewrite <- Z.land_assoc. change (Z.land 127 128) with 0. apply Z.land_0_r.
Qed.

Lemma continuation_octet_ge u :
  0 <= u → (Z.lor (Z.land u 127) 128 <? 128) = false.
Proof.
  intros Hu. rewrite continuation_octet by done. apply Z.ltb_ge.
  assert (0 <= Z.land u 127) by (apply Z.land_nonneg; lia). lia.
Qed.

Lemma continuation_octet_low u :
  Z.land (Z.lor (Z.land u 127) 128) 127 = Z.land u 127.
Proof.
  rewrite Z.land_lor_distr_l. change (Z.land 128 127) with 0.
  rewrite Z.lor_0_r, <- Z.land_assoc. done.
Qed.

Lemma varint_split u s : 0 <= s →
  Z.lor (Z.shiftl (Z.land u 127) s) (Z.shiftl (Z.shiftr u 7) (s + 7)) = Z.shiftl u s.
Proof.
  intros Hs. apply Z.bits_inj'. intros n Hn.
  rewrite Z.lor_spec.
  destruct (Z.lt_ge_cases n s) as [Hlt|Hge].
  - rewrite !Z.shiftl_spec_low by lia. done.
  - rewrite !Z.shiftl_spec by lia. rewrite Z.land_spec.
    change 127 with (Z.ones 7).
    destruct (Z.lt_ge_cases (n - s) 7) as [Hlow|Hhigh].
    + rewrite Z.ones_spec_low by lia. rewrite andb_true_r.
      rewrite (Z.testbit_neg_r _ (n - (s + 7))) by lia. apply orb_false_r.
    + rewrite Z.ones_spec_high by lia. rewrite andb_false_r. simpl.
      rewrite Z.shiftr_spec by lia. f_equal. lia.
Qed.

Lemma writeVarint_S fuel u :
  writeVarint (S fuel) u =
  if u <? 128 then [u]
  else Z.lor (Z.land u 127) 128 :: writeVarint fuel (Z.shiftr u 7).
Proof. done. Qed.

Lemma readVarint_cons fuel shift b rest :
  readVarint (S fuel) shift (b :: rest) =
  if b <? 128 then Ok (Z.shiftl b shift, rest)
  else '(v, rest') ← readVarint fuel (shift + 7) rest;
       Ok (Z.lor (Z.shiftl (Z.land b 127) shift) v, rest').
Proof. done. Qed.

(** Reading back a varint, with at least the fuel it was written with. *)
Lemma readVarint_writeVarint extra fuel : ∀ u shift rest,
  0 <= u < 2 ^ (7 * Z.of_nat (S fuel)) → 0 <= shift →
  readVarint (S (fuel + extra)) shift (writeVarint (S fuel) u ++ rest)
  = Ok (Z.shiftl u shift, rest).
Proof.
  induction fuel as [|fuel IH]; intros u shift rest Hu Hs;
    rewrite writeVarint_S; destruct (Z.ltb_spec u 128) as [Hlt|Hge].
  - cbn [app]. by rewrite readVarint_cons, (proj2 (Z.ltb_lt u 128) Hlt).
  - change (2 ^ (7 * Z.of_nat 1)) with 128 in Hu. lia.
  - cbn [app]. by rewrite readVarint_cons, (proj2 (Z.ltb_lt u 128) Hlt).
  - cbn [app]. rewrite readVarint_cons, continuation_octet_ge by lia.
    cbn [Nat.add]. rewrite IH; [|split|lia].
    + simpl. rewrite continuation_octet_low, varint_split by lia. done.
    + apply Z.shiftr_nonneg. lia.
    + rewrite Z.shiftr_div_pow2 by lia.
      apply Z.div_lt_upper_bound; [lia|].
      rewrite <- Z.pow_add_r by lia.
      replace (7 + 7 * Z.of_nat (S fuel)) with (7 * Z.of_nat (S (S fuel)))
        by lia.
      lia.
Qed.

Lemma zzEncode_nonneg n : 0 <= n < 2 ^ 63 → zzEncode n = 2 * n.
Proof.
  intros Hn. unfold zzEncode.
  rewrite (Z.shiftr_eq_0 n 63).
  - rewrite Z.lxor_0_r, Z.shiftl_mul_pow2 by lia. rewrite Z.mod_small; lia.
  - lia.
  - destruct (Z.eq_dec n 0) as [->|?]; [done|]. apply Z.log2_lt_pow2; lia.
Qed.

Lemma zzEncode_neg n : - 2 ^ 63 <= n < 0 → zzEncode n = - 2 * n - 1.
Proof.
  intros Hn. unfold zzEncode.
  assert (Z.shiftr n 63 = -1) as ->.
  { rewrite Z.shiftr_div_pow2 by lia.
    symmetry. apply (Z.div_unique_pos n (2 ^ 63) (-1) (n + 2 ^ 63)); lia. }
  rewrite Z.lxor_m1_r, Z.shiftl_mul_pow2 by lia.
  unfold Z.lnot. rewrite Z.mod_small; lia.
Qed.

Lemma zzDecode_even n : zzDecode (2 * n) = n.
Proof.
  unfold zzDecode.
  assert (Z.land (2 * n) 1 = 0) as ->.
  { change 1 with (Z.ones 1). rewrite Z.land_ones by lia.
    change (2 ^ 1) with 2. rewrite Z.mul_comm. apply Z.mod_mul. lia. }
  simpl. rewrite Z.lxor_0_r. rewrite Z.shiftr_div_pow2 by lia.
  change (2 ^ 1) with 2. rewrite Z.mul_comm. apply Z.div_mul. lia.
Qed.

Lemma zzDecode_odd n : zzDecode (2 * n + 1) = - n - 1.
Proof.
  unfold zzDecode.
  assert (Z.land (2 * n + 1) 1 = 1) as ->.
  { change 1 with (Z.ones 1) at 2. rewrite Z.land_ones by lia.
    change (2 ^ 1) with 2. rewrite Z.add_comm, Z.mul_comm, Z.mod_add; done. }
  rewrite Z.lxor_m1_r. rewrite Z.shiftr_div_pow2 by lia.
  change (2 ^ 1) with 2.
  assert ((2 * n + 1) / 2 = n) as ->.
  { symmetry. apply (Z.div_unique_pos _ 2 n 1); lia. }
  unfold Z.lnot. lia.
Qed.

Example varint_300 : writeVarint 10 300 = [172; 2].
Proof. reflexivity. Qed.

Example sint64_minus_one : sint64 (-1) = [1].
Proof. reflexivity. Qed.

(** Zig-zag decoding undoes zig-zag encoding on 64-bit integers. *)
Lemma zigzag_roundtrip n : - 2 ^ 63 <= n < 2 ^ 63 →
  0 <= zzEncode n < 2 ^ 64 ∧ zzDecode (zzEncode n) = n.
Proof.
  intros Hn. destruct (Z.lt_ge_cases n 0) as [Hneg|Hpos].
  - rewrite zzEncode_neg by lia. split; [lia|].
    replace (- 2 * n - 1) with (2 * (- n - 1) + 1) by lia.
    rewrite zzDecode_odd. lia.
  - rewrite zzEncode_nonneg by lia. split; [lia|]. apply zzDecode_even.
Qed.

End WireFacts.

(** ** Serializers *)

Module SerializersFacts.
Import Wire Serializers WireFacts.

Lemma decode_loop_nil {M}
    (field : Z → Z → list Z → M → option (result Wire.error (M * list Z)))
    fuel m :
  decode_loop field fuel [] m = Ok m.
Proof. by destruct fuel. Qed.

Lemma read_sint64_sint64 n rest : - 2 ^ 63 <= n < 2 ^ 63 →
  read_sint64 (sint64 n ++ rest) = Ok (n, rest).
Proof.
  intros Hn. destruct (zigzag_roundtrip n Hn) as [Hu Hd].
  unfold read_sint64, sint64.
  rewrite (readVarint_writeVarint 0 9)
    by (change (2 ^ (7 * Z.of_nat 10)) with (2 ^ 70); lia).
  simpl. rewrite Z.shiftl_0_r, Z.mod_small by lia. by rewrite Hd.
Qed.

Lemma roundToDouble_safe z : Z.abs z <= 2 ^ 53 - 1 → roundToDouble z = z.
Proof.
  intros Hz. unfold roundToDouble.
  by rewrite (proj2 (Z.ltb_lt (Z.abs z) (2 ^ 53))) by lia.
Qed.

Lemma deserialize_depth_intValue hasLong depth msg n :
  decode hasLong msg = Ok [intValue n] →
  deserialize_depth hasLong depth msg = Ok (VNumber (Integer (int64AsNumber n))).
Proof. intros H. destruct depth; simpl; by rewrite H. Qed.

Lemma decode_intValue hasLong z : - 2 ^ 63 <= z < 2 ^ 63 →
  decode hasLong (encode (intValue (AsNumber z)))
  = Ok [intValue (if hasLong then AsLong z else AsNumber (roundToDouble z))].
Proof.
  intros Hz. unfold encode. change (tag 2 0) with [16].
  unfold decode, Wire.decode. cbn [app length decode_loop].
  change (read_uint32 (16 :: sint64 z)) with (Ok (E:=Wire.error) (16, sint64 z)).
  cbn [mbind result_bind].
  change (Z.shiftr 16 3) with 2. change (Z.land 16 7) with 0.
  unfold decode_field. cbn [Z.eqb Pos.eqb].
  rewrite <- (app_nil_r (sint64 z)) at 1.
  rewrite read_sint64_sint64 by done. cbn [mbind result_bind assign].
  apply decode_loop_nil.
Qed.

Example serialize_five : serialize (VNumber (Integer 5)) = Ok [16; 10].
Proof. reflexivity. Qed.

Example serialize_unsafe_integer :
  serialize (VNumber (Integer (2 ^ 53)))
  = Ok [25; 0; 0; 0; 0; 0; 0; 64; 67].
Proof. reflexivity. Qed.

Example array_roundtrip :
  serialize (VArray [VString "ab"; VNumber (Integer 300); VArray []])
  = Ok [58; 15; 10; 4; 10; 2; 97; 98; 10; 3; 16; 216; 4; 10; 2; 58; 0] ∧
  deserialize true
    [58; 15; 10; 4; 10; 2; 97; 98; 10; 3; 16; 216; 4; 10; 2; 58; 0]
  = Ok (VArray [VString "ab"; VNumber (Integer 300); VArray []]).
Proof. split; by vm_compute. Qed.

(** C10. For every number [n] with [Number.isSafeInteger(n)],
    [serialize(n)] returns a message and [deserialize] of that message
    returns exactly [n], whether 64-bit fields decode to [Long] objects
    or to numbers. *)
Theorem safe_integer_roundtrip (hasLong : bool) (n : number) :
  isSafeInteger n = true →
  ∃ msg, serialize (VNumber n) = Ok msg ∧
         deserialize hasLong msg = Ok (VNumber n).
Proof.
  intros Hsafe. destruct n as [z|bits]; [|done].
  simpl in Hsafe. apply Z.leb_le in Hsafe.
  exists (encode (intValue (AsNumber z))). split.
  - cbn [serialize isSafeInteger integerValue].
    by rewrite (proj2 (Z.leb_le (Z.abs z) (2 ^ 53 - 1))) by done.
  - unfold deserialize.
    rewrite (deserialize_depth_intValue hasLong _ _
               (if hasLong then AsLong z else AsNumber (roundToDouble z))).
    + destruct hasLong; simpl; by rewrite roundToDouble_safe.
    + apply decode_intValue. lia.
Qed.

Lemma safe_integer_roundtrip_witness :
  isSafeInteger (Integer (- (2 ^ 53 - 1))) = true ∧
  ∃ msg, serialize (VNumber (Integer (- (2 ^ 53 - 1)))) = Ok msg ∧
         deserialize true msg = Ok (VNumber (Integer (- (2 ^ 53 - 1)))).
Proof.
  split; [reflexivity|].
  apply (safe_integer_roundtrip true (Integer (- (2 ^ 53 - 1)))).
  reflexivity.
Defined.

Lemma bytes_to_string_to_bytes s : bytes_to_string (string_to_bytes s) = s.
Proof.
  unfold bytes_to_string, string_to_bytes.
  induction s as [|a s IH]; [done|]. simpl.
  rewrite N2Z.id, Ascii.ascii_N_embedding. f_equal. exact IH.
Qed.

Lemma read_uint32_uint32 v rest : 0 <= v < 2 ^ 32 →
  read_uint32 (uint32 v ++ rest) = Ok (v, rest).
Proof.
  intros Hv. unfold read_uint32, uint32. rewrite (Z.mod_small v) by done.
  rewrite (readVarint_writeVarint 5 4)
    by (change (2 ^ (7 * Z.of_nat 5)) with (2 ^ 35); lia).
  simpl. by rewrite Z.shiftl_0_r, Z.mod_small.
Qed.

Lemma read_uint32_octet t rest : 0 <= t < 128 →
  read_uint32 (t :: rest) = Ok (t, rest).
Proof.
  intros Ht. unfold read_uint32.
  rewrite readVarint_cons, (proj2 (Z.ltb_lt t 128)) by lia.
  simpl. by rewrite Z.shiftl_0_r, Z.mod_small by lia.
Qed.

Lemma read_raw_app (b rest : list Z) :
  read_raw (length b) (b ++ rest) = Ok (b, rest).
Proof.
  unfold read_raw. rewrite decide_True by (rewrite length_app; lia).
  by rewrite take_app_length, drop_app_length.
Qed.

Lemma read_bytes_bytes (b rest : list Z) : Z.of_nat (length b) < 2 ^ 32 →
  read_bytes (bytes_ b ++ rest) = Ok (b, rest).
Proof.
  intros Hb. unfold read_bytes, bytes_. rewrite <- app_assoc.
  rewrite read_uint32_uint32 by lia. simpl. rewrite Nat2Z.id.
  apply read_raw_app.
Qed.

Lemma read_string_string s rest :
  Z.of_nat (length (string_to_bytes s)) < 2 ^ 32 →
  read_string (string_ s ++ rest) = Ok (s, rest).
Proof.
  intros Hs. unfold read_string, string_. rewrite read_bytes_bytes by done.
  simpl. by rewrite bytes_to_string_to_bytes.
Qed.

Lemma CollabIDMessage_decode_loop (l : list string) : ∀ acc fuel,
  Forall shortString l →
  (length (flat_map (λ s, tag 1 2 ++ string_ s) l) ≤ fuel)%nat →
  decode_loop CollabIDMessage_field fuel
    (flat_map (λ s, tag 1 2 ++ string_ s) l) {[ "namePath" := acc ]}
  = Ok {[ "namePath" := acc ++ l ]}.
Proof.
  induction l as [|s l IH]; intros acc fuel Hl Hfuel.
  - simpl. rewrite decode_loop_nil. by rewrite app_nil_r.
  - apply Forall_cons in Hl as [Hs Hl].
    cbn [flat_map] in *. change (tag 1 2) with [10] in *.
    cbn [app] in *. destruct fuel as [|fuel]; [simpl in Hfuel; lia|].
    cbn [decode_loop].
    rewrite read_uint32_octet by lia. cbn [mbind result_bind].
    change (Z.shiftr 10 3) with 1. change (Z.land 10 7) with 2.
    unfold CollabIDMessage_field at 1. cbn [Z.eqb Pos.eqb].
    rewrite read_string_string by done. cbn [mbind result_bind].
    rewrite lookup_singleton_eq, insert_singleton_eq. cbn [default].
    rewrite IH; [|done|].
    + by rewrite <- app_assoc.
    + simpl in Hfuel. rewrite length_app in Hfuel. lia.
Qed.

(** C7. For every CollabID, a path of edge labels (each short enough
    for the 32-bit length prefix of the wire format),
    [deserialize(serialize(id))] returns a CollabID with the same
    [namePath]. *)
Theorem collabID_roundtrip (path : list string) :
  Forall shortString path →
  CollabID_deserialize (CollabID_serialize {| namePath := Some path |})
  = Ok {| namePath := Some path |}.
Proof.
  intros Hl. unfold CollabID_deserialize, CollabID_serialize,
    CollabIDMessage_decode, CollabIDMessage_encode, CollabIDMessage_create,
    object_of_CollabID, Wire.decode. cbn [namePath].
  rewrite lookup_union_l' by (rewrite lookup_singleton_eq; eauto).
  rewrite lookup_singleton_eq. cbn [default].
  rewrite (CollabIDMessage_decode_loop path []) by done.
  cbn [lift mbind result_bind app]. by rewrite lookup_singleton_eq.
Qed.

Lemma shortString_a_b : Forall shortString ["a"; "b"].
Proof. repeat constructor; by vm_compute. Qed.

Lemma collabID_roundtrip_witness :
  CollabID_deserialize (CollabID_serialize {| namePath := Some ["a"; "b"] |})
  = Ok {| namePath := Some ["a"; "b"] |}.
Proof.
  apply (collabID_roundtrip ["a"; "b"]). exact shortString_a_b.
Defined.

(** The bytes of the path [a], [b]: two length-delimited fields 1. *)
Example collabID_serialize_example :
  CollabID_serialize {| namePath := Some ["a"; "b"] |} = [10; 1; 97; 10; 1; 98].
Proof. by vm_compute. Qed.

(** The empty path is the empty message. *)
Example collabID_serialize_root :
  CollabID_serialize {| namePath := Some [] |} = [] ∧
  CollabID_deserialize [] = Ok {| namePath := Some [] |}.
Proof. by vm_compute. Qed.

End SerializersFacts.

(** ** More on vector clocks *)

Module VectorClockMoreFacts.
Import VectorClock VectorClockFacts VectorClockMore.

Lemma vc_merge_lookup (a b : t) k :
  vectorMap (merge a b) !! k =
  match vectorMap a !! k, vectorMap b !! k with
  | Some x, Some y => Some (Z.max x y)
  | Some x, None => Some x
  | None, Some y => Some y
  | None, None => None
  end.
Proof. unfold merge, getVectorMap. simpl. apply merge_fold_lookup. Qed.

(** X1. On the maps, [merge] is commutative and associative: the order
    in which clocks are merged does not matter. *)
Theorem merge_comm_assoc (a b c : t) :
  vectorMap (merge a b) = vectorMap (merge b a) ∧
  vectorMap (merge (merge a b) c) = vectorMap (merge a (merge b c)).
Proof.
  split; apply map_eq; intros k; rewrite !vc_merge_lookup.
  - destruct (vectorMap a !! k), (vectorMap b !! k); try done.
    by rewrite Z.max_comm.
  - destruct (vectorMap a !! k), (vectorMap b !! k), (vectorMap c !! k);
      try done.
    by rewrite Z.max_assoc.
Qed.

(** X2. Merging the same clock a second time, or a clock into itself,
    changes nothing. *)
Theorem merge_idempotent (a b : t) :
  merge (merge a b) b = merge a b ∧ merge a a = a.
Proof.
  assert (∀ x y : t, uid x = uid y → vectorMap x = vectorMap y → x = y) as Heq.
  { intros [] []. simpl. by intros -> ->. }
  split; apply Heq; try done; apply map_eq; intros k; rewrite !vc_merge_lookup.
  - destruct (vectorMap a !! k), (vectorMap b !! k); try done; f_equal; lia.
  - destruct (vectorMap a !! k); try done. f_equal. lia.
Qed.

(** X3. After [merge] no entry of either clock has decreased, and
    every entry of the result is an entry of one of the two clocks. *)
Theorem merge_least_upper_bound (a b : t) (k : string) :
  (∀ v, vectorMap a !! k = Some v ∨ vectorMap b !! k = Some v →
        ∃ v', vectorMap (merge a b) !! k = Some v' ∧ v <= v') ∧
  (∀ v', vectorMap (merge a b) !! k = Some v' →
         vectorMap a !! k = Some v' ∨ vectorMap b !! k = Some v').
Proof.
  rewrite vc_merge_lookup. split.
  - intros v Hv.
    destruct (vectorMap a !! k) as [x|], (vectorMap b !! k) as [y|];
      destruct Hv as [?|?]; simplify_eq; eexists; (split; [done|lia]).
  - intros v' Hv'.
    destruct (vectorMap a !! k) as [x|], (vectorMap b !! k) as [y|];
      simplify_eq; auto.
    destruct (Z.max_spec x y) as [[_ ->]|[_ ->]]; auto.
Qed.

(** X4. A message that is ready advances the receiver's entry for its
    sender from [c - 1] to [c] when it is merged, and is not ready a
    second time. *)
Theorem delivered_once (R T : t) :
  isready R T = true →
  ∃ c, vectorMap T !! uid T = Some c ∧
       vectorMap R !! uid T = Some (c - 1) ∧
       vectorMap (merge R T) !! uid T = Some c ∧
       isready (merge R T) T = false.
Proof.
  intros Hr. apply isready_true in Hr as [(r & c & HR & HT & ->) _].
  exists c. split; [done|]. split; [done|].
  assert (vectorMap (merge R T) !! uid T = Some c) as Hm.
  { rewrite vc_merge_lookup, HR, HT. f_equal. lia. }
  split; [done|].
  destruct (isready (merge R T) T) eqn:Hr'; [|done].
  apply isready_true in Hr' as [(r' & c' & HR' & HT' & ->) _].
  simplify_eq. lia.
Qed.

(** X5. A message from a sender the receiver has no entry for is never
    ready, whatever its counter and its other entries. *)
Theorem unknown_sender_never_ready (R T : t) :
  vectorMap R !! uid T = None → isready R T = false.
Proof.
  intros Hnone. destruct (isready R T) eqn:Hr; [|done].
  apply isready_true in Hr as [(r & c & Hr & _) _]. congruence.
Qed.

(** X6. The clock of a sender after [increment] is ready at every
    receiver that has the sender's previous entry and covers its other
    entries. *)
Theorem next_message_ready (R S : t) (v : Z) :
  vectorMap S !! uid S = Some v →
  vectorMap R !! uid S = Some v →
  (∀ k x, k ≠ uid S → vectorMap S !! k = Some x →
          ∃ r, vectorMap R !! k = Some r ∧ r >= x) →
  isready R (increment S) = true.
Proof.
  intros HS HR Hcov. apply isready_true.
  rewrite increment_uid. unfold increment. rewrite HS. simpl.
  split.
  - exists v, (v + 1). rewrite lookup_insert_eq. split; [done|].
    split; [done|lia].
  - intros k x Hne Hk. rewrite lookup_insert_ne in Hk by done. eauto.
Qed.

Lemma nonneg_step this o :
  nonneg (vectorMap this) → nonneg_op o → nonneg (vectorMap (step this o)).
Proof.
  intros Hthis Ho. destruct o as [|vc|someUid clockValue]; cbn [step nonneg_op] in *.
  - unfold increment. destruct (vectorMap this !! uid this) as [old|] eqn:Hold;
      [|done]. simpl. intros k v.
    rewrite lookup_insert. case_decide; intros; simplify_eq.
    + pose proof (Hthis _ _ Hold). lia.
    + eauto.
  - intros k v. rewrite vc_merge_lookup.
    destruct (vectorMap this !! k) as [x|] eqn:Hx,
             (vectorMap vc !! k) as [y|] eqn:Hy; intros; simplify_eq.
    + pose proof (Hthis _ _ Hx). lia.
    + eauto.
    + eauto.
  - intros k v. unfold setEntry. simpl.
    rewrite lookup_insert. case_decide; intros; simplify_eq; eauto.
Qed.

(** X7. Starting from the constructor, calls of [increment], of [merge]
    with clocks without negative entries and of [setEntry] with values
    that are not negative never produce a negative entry. *)
Theorem counters_never_negative (replicaID : string) (ops : list op) :
  Forall nonneg_op ops →
  nonneg (vectorMap (run (new replicaID) ops)).
Proof.
  assert (∀ ops this, nonneg (vectorMap this) → Forall nonneg_op ops →
                      nonneg (vectorMap (run this ops))) as Hrun.
  { clear. unfold run. induction ops as [|o ops IH]; intros this Hthis Hops;
      [done|].
    apply Forall_cons in Hops as [Ho Hops]. simpl.
    apply IH; [|done]. by apply nonneg_step. }
  intros Hops. apply Hrun; [|done].
  intros k v. unfold new. simpl.
  rewrite lookup_insert. case_decide; intros; simplify_eq. lia.
Qed.

Lemma step_monotone this o k v :
  isSetEntry o = false →
  vectorMap this !! k = Some v →
  ∃ v', vectorMap (step this o) !! k = Some v' ∧ v <= v'.
Proof.
  intros Ho Hk. destruct o as [|vc|]; [| |done]; cbn [step].
  - unfold increment. destruct (vectorMap this !! uid this) as [old|] eqn:Hold.
    + simpl. rewrite lookup_insert. case_decide; simplify_eq.
      * exists (v + 1). split; [done|lia].
      * exists v. split; [done|lia].
    + exists v. split; [done|lia].
  - rewrite vc_merge_lookup, Hk. destruct (vectorMap vc !! k) as [y|].
    + eexists. split; [done|lia].
    + exists v. split; [done|lia].
Qed.

(** X8. Under [increment] and [merge] no entry is ever removed or
    lowered. *)
Theorem counters_never_decrease (this : t) (ops : list op) (k : string) (v : Z) :
  forallb (λ o, negb (isSetEntry o)) ops = true →
  vectorMap this !! k = Some v →
  ∃ v', vectorMap (run this ops) !! k = Some v' ∧ v <= v'.
Proof.
  unfold run. revert this v.
  induction ops as [|o ops IH]; intros this v Hops Hk.
  - exists v. split; [done|lia].
  - simpl in Hops. apply andb_true_iff in Hops as [Ho Hops].
    apply negb_true_iff in Ho.
    destruct (step_monotone this o k v Ho Hk) as (v1 & Hv1 & Hle).
    destruct (IH (step this o) v1 Hops Hv1) as (v2 & Hv2 & Hle').
    exists v2. split; [done|lia].
Qed.

End VectorClockMoreFacts.

(** ** More on the last-writer-wins register *)

Module LwwMoreFacts.
Import Lww LwwMore LwwFacts.

Section Register.
Context {T : Type}.
Variable differs : T → T → bool.

(** X9. A write whose vector clock covers the stored write overwrites
    it whatever the two wall-clock times are; the returned flag and the
    event tell whether the value differs. *)
Theorem causally_later_write_overwrites (st : LwwState T)
    (ts : CausalTimestamp) (m : LwwMessage T) (s0 : string) (vcEntry : Z) :
  sender st = Some s0 →
  asVectorClock ts !! s0 = Some vcEntry →
  counter st <= vcEntry →
  receive differs st ts m =
  ({| value := msg_value m; initialValue := initialValue st;
      sender := Some (getSender ts); counter := getSenderCounter ts;
      time := Some (msg_time m) |},
   differs (value st) (msg_value m),
   if differs (value st) (msg_value m)
   then Some {| ev_timestamp := ts; ev_value := msg_value m;
                ev_oldValue := value st; ev_timeSet := msg_time m |}
   else None).
Proof.
  intros Hs Hvc Hle. unfold receive.
  assert (overwrite st ts m = true) as ->.
  { unfold overwrite, causallyGreater. rewrite Hs, Hvc.
    by rewrite (proj2 (Z.leb_le _ _) Hle). }
  by destruct (differs (value st) (msg_value m)).
Qed.

Lemma string_gt_irrefl s : string_gt s s = false.
Proof.
  unfold string_gt, String.ltb.
  pose proof (String.compare_antisym s s) as H.
  by destruct (String.compare s s).
Qed.

(** X10. Receiving the same write a second time leaves the state as the
    first time left it. *)
Theorem receive_idempotent (st : LwwState T) (ts : CausalTimestamp)
    (m : LwwMessage T) :
  after differs (after differs st ts m) ts m = after differs st ts m.
Proof.
  destruct (overwrite st ts m) eqn:Ho.
  - rewrite (after_overwrite differs st ts m Ho).
    match goal with |- after _ ?st' _ _ = _ => set (st1 := st') end.
    destruct (overwrite st1 ts m) eqn:Ho1.
    + by rewrite (after_overwrite differs st1 ts m Ho1).
    + by rewrite (after_keep differs st1 ts m Ho1).
  - rewrite (after_keep differs st ts m Ho). by apply after_keep.
Qed.

Lemma after_cases (st : LwwState T) ts m :
  after differs st ts m = st ∧ sender st ≠ None ∨
  (stores (after differs st ts m) (ts, m) ∧
   initialValue (after differs st ts m) = initialValue st).
Proof.
  destruct (overwrite st ts m) eqn:Ho.
  - right. rewrite (after_overwrite differs st ts m Ho). by repeat split.
  - left. split; [by apply after_keep|].
    intros Hnone. by rewrite overwrite_initial in Ho.
Qed.

Lemma receiveAll_snoc (st : LwwState T) ws w :
  receiveAll differs st (ws ++ [w])
  = after differs (receiveAll differs st ws) w.1 w.2.
Proof. unfold receiveAll. by rewrite foldl_snoc. Qed.

Lemma receiveAll_stores (initial : T)
    (writes : list (CausalTimestamp * LwwMessage T)) :
  let st := receiveAll differs (initialState initial) writes in
  initialValue st = initial ∧
  (writes = [] ∧ st = initialState initial ∨
   writes ≠ [] ∧ ∃ w, w ∈ writes ∧ stores st w).
Proof.
  induction writes as [|[ts m] ws IH] using rev_ind; simpl.
  - split; [done|]. by left.
  - rewrite receiveAll_snoc. simpl in *. destruct IH as [Hinit IH].
    set (st := receiveAll differs (initialState initial) ws) in *.
    destruct (after_cases st ts m) as [[Hkeep Hsome]|[Hst Hi]].
    + rewrite Hkeep. split; [done|]. right.
      split; [by destruct ws|].
      destruct IH as [[_ Heq]|[_ (w & Hw & Hst)]].
      * by rewrite Heq in Hsome.
      * exists w. split; [|done]. apply elem_of_app. by left.
    + split; [congruence|]. right. split; [by destruct ws|].
      exists (ts, m). split; [|done]. apply elem_of_app. right.
      by apply list_elem_of_singleton.
Qed.

(** X11. After at least one write the register stores one of the writes
    it received, is not in its initial state, has kept its initial
    value, and a local reset brings it back to the initial state. *)
Theorem register_holds_a_received_write (initial : T)
    (writes : list (CausalTimestamp * LwwMessage T)) :
  writes ≠ [] →
  let st := receiveAll differs (initialState initial) writes in
  (∃ w, w ∈ writes ∧ stores st w) ∧
  initialValue st = initial ∧
  isInInitialState st = false ∧
  resetLocalState st = initialState initial.
Proof.
  intros Hne st.
  destruct (receiveAll_stores initial writes) as [Hinit [[? _]|[_ Hw]]];
    [done|].
  fold st in Hinit, Hw. destruct Hw as (w & Hw & Hst).
  split; [eauto|]. split; [done|]. split.
  - unfold isInInitialState. apply bool_decide_eq_false_2.
    destruct Hst as (_ & Hs & _). by rewrite Hs.
  - unfold resetLocalState, initialState. by rewrite Hinit.
Qed.

End Register.
End LwwMoreFacts.

(** ** The resettable counter *)

Module CounterFacts.
Import Counter.

Lemma counter_merge_lookup (target source : gmap string Z) k :
  merge target source !! k =
  match target !! k, source !! k with
  | Some a, Some b => Some (Z.max a b)
  | Some a, None => Some a
  | None, Some b => Some b
  | None, None => None
  end.
Proof.
  unfold merge. revert k.
  apply (map_fold_weak_ind (λ r m, ∀ k, r !! k =
    match target !! k, m !! k with
    | Some a, Some b => Some (Z.max a b)
    | Some a, None => Some a
    | None, Some b => Some b
    | None, None => None
    end)).
  - intros k. rewrite lookup_empty. by destruct (target !! k).
  - intros i x m r Hi IH k. unfold merge_body.
    pose proof (IH i) as IHi. rewrite Hi in IHi.
    destruct (decide (i = k)) as [->|Hne].
    + rewrite lookup_insert_eq.
      destruct (target !! k) as [a|] eqn:Ht; rewrite IHi.
      * destruct (Z.ltb_spec a x).
        -- rewrite lookup_insert_eq. f_equal. lia.
        -- rewrite IHi. f_equal. lia.
      * by rewrite lookup_insert_eq.
    + rewrite (lookup_insert_ne m) by done. rewrite <- (IH k).
      destruct (r !! i) as [mine|]; [destruct (mine <? x)|];
        by rewrite ?lookup_insert_ne.
Qed.

Lemma addValues_empty : addValues ∅ = 0.
Proof. done. Qed.




Lemma state_eq (a b : CounterState) :
  plusP a = plusP b → plusN a = plusN b →
  minusP a = minusP b → minusN a = minusN b → a = b.
Proof. destruct a, b. simpl. by intros -> -> -> ->. Qed.

Lemma insert_add_commute (m : gmap string Z) s1 s2 a b :
  <[s2 := default 0 (<[s1 := default 0 (m !! s1) + a]> m !! s2) + b]>
    (<[s1 := default 0 (m !! s1) + a]> m)
  = <[s1 := default 0 (<[s2 := default 0 (m !! s2) + b]> m !! s1) + a]>
      (<[s2 := default 0 (m !! s2) + b]> m).
Proof.
  destruct (decide (s1 = s2)) as [->|Hne].
  - rewrite !lookup_insert_eq, !insert_insert_eq. simpl. f_equal. lia.
  - rewrite !lookup_insert_ne by done. by apply insert_insert_ne.
Qed.

(** X13. Adds commute: two adds received in either order leave the same
    state. *)
Theorem receive_add_commutes (state : CounterState)
    (ts1 ts2 : CausalTimestamp) (a b : Z) :
  deliver (deliver state ts1 (Some (toAdd a))) ts2 (Some (toAdd b))
  = deliver (deliver state ts2 (Some (toAdd b))) ts1 (Some (toAdd a)).
Proof.
  unfold deliver, receive.
  destruct (0 <? a), (0 <? b); simpl; apply state_eq; simpl; try done.
  - apply insert_add_commute.
  - replace (λ x, x - b) with (λ x, x + - b) by done.
    pose proof (insert_add_commute (minusP state) (getSender ts1)
                  (getSender ts2) (- a) (- b)) as H.
    by rewrite !Z.add_opp_r in H.
Qed.




(** X16. Resets are merged key by key with the maximum: receiving two
    resets in either order gives the same state, and a reset received
    twice counts once. *)
Theorem receive_reset_commutes_idempotent (state : CounterState)
    (ts1 ts2 : CausalTimestamp) (p1 m1 p2 m2 : gmap string Z) :
  deliver (deliver state ts1 (Some (toReset p1 m1))) ts2 (Some (toReset p2 m2))
  = deliver (deliver state ts2 (Some (toReset p2 m2))) ts1 (Some (toReset p1 m1))
  ∧
  deliver (deliver state ts1 (Some (toReset p1 m1))) ts2 (Some (toReset p1 m1))
  = deliver state ts1 (Some (toReset p1 m1)).
Proof.
  unfold deliver, receive. simpl.
  split; apply state_eq; simpl; try done;
    apply map_eq; intros k; rewrite !counter_merge_lookup;
    repeat match goal with
           | |- context [?m !! k] =>
               is_var m; destruct (m !! k); simpl
           | |- context [plusN state !! k] => destruct (plusN state !! k)
           | |- context [minusN state !! k] => destruct (minusN state !! k)
           end; try done; f_equal; lia.
Qed.

End CounterFacts.

(** ** The grow-only set *)

Module GSetFacts.
Import GSet.

Lemma receive_state `{Countable T} (state : gset T) ts (x : T) :
  (receive state ts x).1.1 = {[ x ]} ∪ state.
Proof.
  unfold receive, has. case_bool_decide as Hx; simpl; [|done].
  apply set_eq. intros y. rewrite elem_of_union, elem_of_singleton.
  split; [by right|]. by intros [->|?].
Qed.

(** X17. A grow-only set: receiving adds in either order, or an add
    twice, gives the same set; nothing is ever removed; the flag tells
    whether the element was new. *)
Theorem gset_receive_commutes_idempotent `{Countable T} (state : gset T)
    (ts1 ts2 : CausalTimestamp) (a b : T) :
  (receive (receive state ts1 a).1.1 ts2 b).1.1
  = (receive (receive state ts2 b).1.1 ts1 a).1.1 ∧
  receive (receive state ts1 a).1.1 ts2 a
  = ((receive state ts1 a).1.1, false, None) ∧
  state ⊆ (receive state ts1 a).1.1 ∧
  a ∈ (receive state ts1 a).1.1 ∧
  ((receive state ts1 a).1.2 = true ↔ a ∉ state).
Proof.
  rewrite !receive_state. split; [|split; [|split; [|split]]].
  - apply set_eq. intros y. rewrite !elem_of_union, !elem_of_singleton. tauto.
  - unfold receive at 1, has. rewrite bool_decide_eq_true_2; [done|].
    apply elem_of_union. left. by apply elem_of_singleton.
  - apply union_subseteq_r.
  - apply elem_of_union. left. by apply elem_of_singleton.
  - unfold receive, has. by case_bool_decide.
Qed.

End GSetFacts.

(** ** The multi-value register *)

Module MvrFacts.
Import Mvr.
Section Register.
Context {T : Type} `{EqDecision T}.

Lemma receive_value_state (state : list (MvrEntry T)) ts v :
  (receive state ts (Value v)).1
  = filter (λ entry, overwritten (asVectorClock ts) entry = false) state
    ++ [entryOf ts v].
Proof. unfold receive. simpl. by rewrite andb_false_r. Qed.

(** X18. A write that has seen every stored entry leaves its own value
    as the only one; a reset that has seen every entry leaves none. *)
Theorem write_after_all_replaces (state : list (MvrEntry T))
    (ts : CausalTimestamp) (v : T) :
  Forall (λ entry, overwritten (asVectorClock ts) entry = true) state →
  (receive state ts (Value v)).1 = [entryOf ts v] ∧
  valueSet (receive state ts (Value v)).1 = [v] ∧
  (receive state ts Reset).1 = [] ∧
  valueSet (receive state ts Reset).1 = [].
Proof.
  intros Hall.
  assert (filter (λ entry, overwritten (asVectorClock ts) entry = false) state
          = []) as Hnil.
  { induction state as [|e state IH]; [done|].
    apply Forall_cons in Hall as [He Hall].
    rewrite filter_cons_False by (by rewrite He). by apply IH. }
  rewrite receive_value_state. unfold receive. simpl. rewrite Hnil. done.
Qed.

(** X19. Two writes neither of which has seen the other are both kept,
    next to the same survivors of the earlier state, whatever the order
    of delivery. *)
Theorem concurrent_writes_both_kept (state : list (MvrEntry T))
    (tsA tsB : CausalTimestamp) (a b : T) :
  overwritten (asVectorClock tsB) (entryOf tsA a) = false →
  overwritten (asVectorClock tsA) (entryOf tsB b) = false →
  (receive (receive state tsA (Value a)).1 tsB (Value b)).1
  ≡ₚ (receive (receive state tsB (Value b)).1 tsA (Value a)).1 ∧
  entryOf tsA a ∈ (receive (receive state tsA (Value a)).1 tsB (Value b)).1 ∧
  entryOf tsB b ∈ (receive (receive state tsA (Value a)).1 tsB (Value b)).1.
Proof.
  intros HA HB. rewrite !receive_value_state.
  rewrite !filter_app, !filter_cons_True, !filter_nil by done.
  split; [|split].
  - rewrite <- !app_assoc. simpl.
    assert (∀ (P Q : MvrEntry T → Prop) `{∀ x, Decision (P x)}
              `{∀ x, Decision (Q x)} (l : list (MvrEntry T)),
              filter P (filter Q l) = filter Q (filter P l)) as Hcomm.
    { intros P Q ? ? l. induction l as [|x l IH]; [done|].
      destruct (decide (P x)), (decide (Q x)).
      - rewrite 4?filter_cons_True by done. by f_equal.
      - rewrite (filter_cons_False Q), (filter_cons_True P) by done.
        by rewrite (filter_cons_False Q).
      - rewrite (filter_cons_True Q), (filter_cons_False P) by done.
        by rewrite (filter_cons_False P).
      - by rewrite (filter_cons_False Q), (filter_cons_False P),
          ?(filter_cons_False Q), ?(filter_cons_False P). }
    rewrite Hcomm. apply Permutation_app_head. apply perm_swap.
  - rewrite !elem_of_app, !list_elem_of_singleton. auto.
  - rewrite !elem_of_app, !list_elem_of_singleton. auto.
Qed.

End Register.
End MvrFacts.

(** ** More on dynamic sets *)

Module YjsCrdtSetMoreFacts.
Import YjsCrdtSet YjsCrdtSetMore.

Section Set_.
Context {C : Type}.
Variable valueCrdtConstructor : string → C.
Variable init : string → C → C.
Variable child_receive :
  C → list string → CausalTimestamp → list Z → result error C.
Variable decode : list Z → result error YjsCrdtSetMessage.
Variable nameSerializer_serialize : string * Z → list Z.
Variable arrayAsString : list Z → string.

Local Abbreviation receiveInternal :=
  (receiveInternal valueCrdtConstructor init child_receive decode
                   nameSerializer_serialize arrayAsString).
Local Abbreviation childName :=
  (childName nameSerializer_serialize arrayAsString).

(** X20. A delete message removes the named child, which from then on
    is frozen: a remote message for it changes nothing, a local one
    throws. A delete of a name that is not a child changes nothing. *)
Theorem delete_freezes_child (this : t C) (timestamp : CausalTimestamp)
    (message : list Z) (name : string) :
  decode message = Ok (Delete name) →
  ∃ this',
    receiveInternal this [] timestamp message = Ok this' ∧
    children this' = delete name (children this) ∧
    (children this !! name = None → this' = this) ∧
    ∀ (targetPath : list string) (timestamp' : CausalTimestamp)
      (message' : list Z),
      last targetPath = Some name →
      receiveInternal this' targetPath timestamp' message'
      = if isLocal timestamp' then Throw (FrozenChild name) else Ok this'.
Proof.
  intros Hdec. unfold YjsCrdtSet.receiveInternal at 1. simpl. rewrite Hdec.
  destruct (children this !! name) as [valueCrdt|] eqn:Hchild.
  - eexists. split; [done|]. simpl. split; [done|]. split; [done|].
    intros targetPath timestamp' message' Hlast.
    unfold YjsCrdtSet.receiveInternal. rewrite Hlast. simpl.
    by rewrite lookup_delete_eq.
  - exists this. split; [done|]. split.
    { symmetry. by apply delete_id. }
    split; [done|].
    intros targetPath timestamp' message' Hlast.
    unfold YjsCrdtSet.receiveInternal. by rewrite Hlast, Hchild.
Qed.

(** X21. A create message must not be delivered twice: once the child
    exists, the same message throws [Duplicate newCrdt name]. *)
Theorem create_twice_throws (this this' : t C)
    (timestamp timestamp' : CausalTimestamp) (message : list Z) (create : Z) :
  decode message = Ok (Create create) →
  receiveInternal this [] timestamp message = Ok this' →
  getSender timestamp' = getSender timestamp →
  receiveInternal this' [] timestamp' message
  = Throw (DuplicateName (childName (getSender timestamp) create)).
Proof.
  intros Hdec Hfirst Hsender.
  unfold YjsCrdtSet.receiveInternal in *. simpl in *. rewrite Hdec in *.
  rewrite Hsender.
  destruct (Map_has (children this) _) eqn:Hhas; [done|].
  injection Hfirst as <-. simpl. unfold Map_has.
  rewrite bool_decide_eq_true_2; [done|]. rewrite lookup_insert_eq. eauto.
Qed.

(** X22. A child that is created and then deleted leaves the children
    as they were; the three events are emitted in order; a set with a
    child cannot be garbage collected. *)
Theorem create_then_delete (this : t C) (timestamp timestamp' : CausalTimestamp)
    (createMessage deleteMessage : list Z) (create : Z) :
  let name := childName (getSender timestamp) create in
  decode createMessage = Ok (Create create) →
  decode deleteMessage = Ok (Delete name) →
  children this !! name = None →
  ∃ created deleted,
    receiveInternal this [] timestamp createMessage = Ok created ∧
    receiveInternal created [] timestamp' deleteMessage = Ok deleted ∧
    canGc created = false ∧
    children deleted = children this ∧
    canGc deleted = canGc this ∧
    emitted deleted
    = emitted this
      ++ [ValueInit (init name (valueCrdtConstructor (getSender timestamp)));
          Add (init name (valueCrdtConstructor (getSender timestamp))) timestamp;
          Deleted (init name (valueCrdtConstructor (getSender timestamp)))
                  timestamp'].
Proof.
  intros name Hc Hd Hfresh.
  unfold YjsCrdtSet.receiveInternal. simpl. rewrite Hc. fold name.
  unfold Map_has. rewrite bool_decide_eq_false_2
    by (rewrite Hfresh; by intros [? ?]).
  eexists. eexists. split; [done|]. rewrite Hd. simpl.
  rewrite lookup_insert_eq. split; [done|]. simpl.
  assert (delete name (<[name:=init name (valueCrdtConstructor (getSender timestamp))]>
                         (children this)) = children this) as Hdel.
  { rewrite delete_insert_eq. by apply delete_id. }
  split.
  - unfold canGc. simpl. apply bool_decide_eq_false_2.
    rewrite map_size_insert_None by done. lia.
  - split; [done|]. split.
    + unfold canGc. simpl. by rewrite Hdel.
    + by rewrite <- app_assoc.
Qed.

(** X23. A message for an existing child is handed to that child with
    the last path element removed; only that child's entry can change,
    and an error of the child is the error of the set. *)
Theorem route_to_child (this : t C) (targetPath : list string)
    (name : string) (child : C) (timestamp : CausalTimestamp)
    (message : list Z) :
  last targetPath = Some name →
  children this !! name = Some child →
  match child_receive child (removelast targetPath) timestamp message with
  | Ok child' =>
      ∃ this',
        receiveInternal this targetPath timestamp message = Ok this' ∧
        children this' !! name = Some child' ∧
        (∀ other, other ≠ name →
                  children this' !! other = children this !! other) ∧
        dom (children this') = dom (children this) ∧
        emitted this' = emitted this ∧
        ourCreatedCrdt this' = ourCreatedCrdt this
  | Throw e => receiveInternal this targetPath timestamp message = Throw e
  end.
Proof.
  intros Hlast Hchild. unfold YjsCrdtSet.receiveInternal.
  rewrite Hlast, Hchild.
  destruct (child_receive child (removelast targetPath) timestamp message)
    as [child'|e]; [|done].
  eexists. split; [done|]. simpl. split; [by rewrite lookup_insert_eq|].
  split; [intros other Hne; by rewrite lookup_insert_ne|].
  split; [|done]. rewrite dom_insert_L.
  apply elem_of_dom_2 in Hchild.
  apply set_eq. intros x. rewrite elem_of_union, elem_of_singleton.
  split; [by intros [->|?]|by right].
Qed.

End Set_.
End YjsCrdtSetMoreFacts.

(** ** More on the default serializer *)

Module DefaultSerializerMoreFacts.
Import Wire Serializers WireFacts SerializersFacts DefaultSerializerMore.

Lemma value_ind' (P : value → Prop) :
  (∀ s, P (VString s)) → (∀ n, P (VNumber n)) → (∀ b, P (VBoolean b)) →
  P VUndefined → P VNull → (∀ b, P (VUint8Array b)) →
  (∀ elements, Forall P elements → P (VArray elements)) →
  P VCollab → (∀ c, P (VInstance c)) → (∀ t, P (VOther t)) →
  ∀ v, P v.
Proof.
  intros Hs Hn Hb Hu Hnull Hbytes Harr Hc Hi Ho. fix IH 1.
  intros [s|n|b| | |b|elements| |c|t];
    [apply Hs|apply Hn|apply Hb|apply Hu|apply Hnull|apply Hbytes|
     |apply Hc|apply Hi|apply Ho].
  apply Harr. induction elements as [|x l IHl]; constructor;
    [apply IH|apply IHl].
Qed.

Lemma serialize_elements_cons x l :
  serialize_elements (x :: l)
  = (b ← serialize x; bs ← serialize_elements l; Ok (b :: bs)).
Proof. done. Qed.

Lemma deserialize_elements_cons hasLong depth x l :
  deserialize_elements hasLong depth (x :: l)
  = (v ← deserialize_depth hasLong depth x;
     vs ← deserialize_elements hasLong depth l; Ok (v :: vs)).
Proof. done. Qed.

Lemma serialize_VArray elements :
  serialize (VArray elements)
  = (ms ← serialize_elements elements; Ok (encode (arrayValue ms))).
Proof. done. Qed.

Lemma deserialize_depth_eq hasLong depth msg :
  deserialize_depth hasLong depth msg =
  (decoded ← lift (decode hasLong msg);
   match oneof_value decoded with
   | Some (stringValue s) => Ok (VString s)
   | Some (intValue n) => Ok (VNumber (Integer (int64AsNumber n)))
   | Some (doubleValue d) => Ok (VNumber d)
   | Some (booleanValue b) => Ok (VBoolean b)
   | Some (undefinedValue _) => Ok VUndefined
   | Some (nullValue _) => Ok VNull
   | Some (arrayValue elements) =>
       match depth with
       | O => Throw BadMessageFormat
       | S depth' =>
           elements' ← deserialize_elements hasLong depth' elements;
           Ok (VArray elements')
       end
   | Some (bytesValue b) => Ok (VUint8Array b)
   | Some (objectValue _) | Some (optionalValue _) => Throw NotModelled
   | None => Throw BadMessageFormat
   end).
Proof. by destruct depth. Qed.

(** [serialize] returns exactly on the serializable values. *)
Lemma serialize_succeeds_iff (v : value) :
  (∃ msg, serialize v = Ok msg) ↔ serializable v = true.
Proof.
  induction v as [s|n|b| | |b|elements IH| |c|t] using value_ind'.
  - split; [done|]. intros _. by eexists.
  - split; [done|]. intros _. simpl. destruct (isSafeInteger n); by eexists.
  - split; [done|]. intros _. by eexists.
  - split; [done|]. intros _. by eexists.
  - split; [done|]. intros _. by eexists.
  - split; [done|]. intros _. by eexists.
  - rewrite serialize_VArray. cbn [serializable].
    assert ((∃ ms, serialize_elements elements = Ok ms)
            ↔ forallb serializable elements = true) as Hl.
    { induction IH as [|x l Hx _ IHl].
      - split; [done|]. intros _. by eexists.
      - rewrite serialize_elements_cons. cbn [forallb].
        rewrite andb_true_iff, <- Hx, <- IHl. split.
        + intros [ms Hms]. destruct (serialize x) as [b|]; [|done].
          destruct (serialize_elements l) as [bs|]; [|done].
          split; by eexists.
        + intros [[b ->] [bs ->]]. by eexists. }
    rewrite <- Hl. split.
    + intros [msg Hmsg]. destruct (serialize_elements elements); [|done].
      by eexists.
    + intros [ms ->]. by eexists.
  - split; [by intros [? ?]|done].
  - split; [by intros [? ?]|done].
  - split; [by intros [? ?]|done].
Qed.


(** A message of one field: its tag octet and its payload. *)
Lemma decode_single {M}
    (field : Z → Z → list Z → M → option (result Wire.error (M * list Z)))
    (empty m' : M) (t : Z) (payload : list Z) :
  0 <= t < 128 →
  field (Z.shiftr t 3) (Z.land t 7) payload empty = Some (Ok (m', [])) →
  Wire.decode field empty (t :: payload) = Ok m'.
Proof.
  intros Ht Hf. unfold Wire.decode. cbn [length decode_loop].
  rewrite read_uint32_octet by done. cbn [mbind result_bind].
  rewrite Hf. cbn [mbind result_bind]. apply decode_loop_nil.
Qed.

Lemma fixed64_octets bits n : ∀ i,
  foldr (λ x acc, Z.lor (Z.land x 255) (Z.shiftl acc 8)) 0
        (map (λ k, Z.land (Z.shiftr bits (8 * Z.of_nat k)) 255) (seq i n))
  = Z.land (Z.shiftr bits (8 * Z.of_nat i)) (Z.ones (8 * Z.of_nat n)).
Proof.
  induction n as [|n IH]; intros i.
  - simpl. by rewrite Z.land_0_r.
  - cbn [seq map foldr]. rewrite IH.
    apply Z.bits_inj'. intros k Hk.
    rewrite Z.lor_spec, !Z.land_spec, !Z.shiftr_spec by lia.
    change 255 with (Z.ones 8).
    destruct (Z.lt_ge_cases k 8) as [Hlow|Hhigh].
    + rewrite Z.shiftl_spec_low by lia.
      rewrite !Z.ones_spec_low by lia.
      by rewrite !andb_true_r, orb_false_r.
    + rewrite (Z.ones_spec_high 8) by lia.
      rewrite !andb_false_r. simpl.
      rewrite Z.shiftl_spec by lia.
      rewrite Z.land_spec, Z.shiftr_spec by lia.
      replace (k - 8 + 8 * Z.of_nat (S i)) with (k + 8 * Z.of_nat i) by lia.
      f_equal.
      destruct (Z.lt_ge_cases (k - 8) (8 * Z.of_nat n)).
      * rewrite !Z.ones_spec_low by lia. done.
      * rewrite !Z.ones_spec_high by lia. done.
Qed.

Lemma read_fixed64_fixed64 bits rest :
  0 <= bits < 2 ^ 64 →
  read_fixed64 (fixed64 bits ++ rest) = Ok (bits, rest).
Proof.
  intros Hb. unfold read_fixed64.
  change 8%nat with (length (fixed64 bits)) at 1.
  rewrite read_raw_app. cbn [mbind result_bind].
  unfold fixed64. rewrite fixed64_octets.
  change (8 * Z.of_nat 0) with 0. rewrite Z.shiftr_0_r.
  change (8 * Z.of_nat 8) with 64.
  rewrite Z.land_ones by lia. by rewrite Z.mod_small.
Qed.

Lemma decode_stringValue hasLong s :
  Z.of_nat (length (string_to_bytes s)) < 2 ^ 32 →
  decode hasLong (encode (stringValue s)) = Ok [stringValue s].
Proof.
  intros Hs. unfold encode. change (tag 1 2) with [10].
  apply decode_single; [lia|].
  change (Z.shiftr 10 3) with 1. change (Z.land 10 7) with 2.
  unfold decode_field. cbn [Z.eqb Pos.eqb].
  rewrite <- (app_nil_r (string_ s)). by rewrite read_string_string.
Qed.

Lemma decode_doubleValue hasLong d :
  0 <= float64_bits d < 2 ^ 64 →
  decode hasLong (encode (doubleValue d))
  = Ok [doubleValue (number_of_bits (float64_bits d))].
Proof.
  intros Hd. unfold encode. change (tag 3 1) with [25].
  apply decode_single; [lia|].
  change (Z.shiftr 25 3) with 3. change (Z.land 25 7) with 1.
  unfold decode_field. cbn [Z.eqb Pos.eqb].
  rewrite <- (app_nil_r (fixed64 _)). by rewrite read_fixed64_fixed64.
Qed.

Lemma decode_bytesValue hasLong b :
  Z.of_nat (length b) < 2 ^ 32 →
  decode hasLong (encode (bytesValue b)) = Ok [bytesValue b].
Proof.
  intros Hb. unfold encode. change (tag 9 2) with [74].
  apply decode_single; [lia|].
  change (Z.shiftr 74 3) with 9. change (Z.land 74 7) with 2.
  unfold decode_field. cbn [Z.eqb Pos.eqb].
  rewrite <- (app_nil_r (bytes_ b)). by rewrite read_bytes_bytes.
Qed.

Lemma ArrayMessage_decode_loop (ms : list (list Z)) : ∀ acc fuel,
  Forall (λ m, Z.of_nat (length m) < 2 ^ 32) ms →
  (length (ArrayMessage_encode ms) ≤ fuel)%nat →
  decode_loop ArrayMessage_field fuel (ArrayMessage_encode ms) acc
  = Ok (acc ++ ms).
Proof.
  unfold ArrayMessage_encode.
  induction ms as [|m ms IH]; intros acc fuel Hms Hfuel.
  - simpl. rewrite decode_loop_nil. by rewrite app_nil_r.
  - apply Forall_cons in Hms as [Hm Hms].
    cbn [flat_map] in *. change (tag 1 2) with [10] in *.
    cbn [app] in *. destruct fuel as [|fuel]; [simpl in Hfuel; lia|].
    cbn [decode_loop].
    rewrite read_uint32_octet by lia. cbn [mbind result_bind].
    change (Z.shiftr 10 3) with 1. change (Z.land 10 7) with 2.
    unfold ArrayMessage_field at 1. cbn [Z.eqb Pos.eqb].
    rewrite read_bytes_bytes by done. cbn [mbind result_bind].
    rewrite IH; [|done|].
    + by rewrite <- app_assoc.
    + simpl in Hfuel. rewrite length_app in Hfuel. lia.
Qed.

Lemma decode_arrayValue hasLong ms :
  Z.of_nat (length (ArrayMessage_encode ms)) < 2 ^ 32 →
  Forall (λ m, Z.of_nat (length m) < 2 ^ 32) ms →
  decode hasLong (encode (arrayValue ms)) = Ok [arrayValue ms].
Proof.
  intros Hbody Hms. unfold encode. change (tag 7 2) with [58].
  apply decode_single; [lia|].
  change (Z.shiftr 58 3) with 7. change (Z.land 58 7) with 2.
  unfold decode_field. cbn [Z.eqb Pos.eqb].
  rewrite <- (app_nil_r (bytes_ _)). rewrite read_bytes_bytes by done.
  cbn [mbind result_bind]. unfold ArrayMessage_decode, Wire.decode.
  by rewrite (ArrayMessage_decode_loop ms []).
Qed.

Lemma length_bytes_ge (b : list Z) : (length b + 1 ≤ length (bytes_ b))%nat.
Proof.
  unfold bytes_. rewrite length_app.
  assert (1 ≤ length (uint32 (Z.of_nat (length b))))%nat; [|lia].
  unfold uint32. rewrite writeVarint_S.
  destruct (_ <? 128); cbn [length]; lia.
Qed.

Lemma length_ArrayMessage_encode ms m :
  m ∈ ms → (length m + 2 ≤ length (ArrayMessage_encode ms))%nat.
Proof.
  unfold ArrayMessage_encode. change (tag 1 2) with [10].
  induction ms as [|m' ms IH]; intros Hin; [by apply elem_of_nil in Hin|].
  cbn [flat_map]. rewrite !length_app. cbn [length].
  pose proof (length_bytes_ge m').
  apply elem_of_cons in Hin as [->|Hin]; [lia|].
  specialize (IH Hin). lia.
Qed.

Lemma length_encode_arrayValue ms :
  (length (ArrayMessage_encode ms) + 2 ≤ length (encode (arrayValue ms)))%nat.
Proof.
  unfold encode. change (tag 7 2) with [58]. cbn [app length].
  pose proof (length_bytes_ge (ArrayMessage_encode ms)). lia.
Qed.

(** X24. [serialize] throws exactly on the values that have a Collab,
    an object of another class or a value of an unsupported type
    somewhere inside. *)
Theorem serialize_throws_iff_unsupported (v : value) :
  (∃ e, serialize v = Throw e) ↔ serializable v = false.
Proof.
  split.
  - intros [e He]. destruct (serializable v) eqn:Hs; [|done].
    apply serialize_succeeds_iff in Hs as [msg Hm]. congruence.
  - intros Hs. destruct (serialize v) as [msg|e] eqn:Hv; [|by eexists].
    assert (serializable v = true) as Ht
      by (apply serialize_succeeds_iff; by eexists).
    congruence.
Qed.

Lemma supported_serializable v : supported v → serializable v = true.
Proof.
  induction v as [s|n|b| | |b|elements IH| |c|t] using value_ind';
    try done.
  cbn [supported serializable]. induction IH as [|x l Hx _ IHl]; [done|].
  simpl. intros [Hsx Hl]. apply andb_true_iff. auto.
Qed.

(** The element-wise statement the induction on values carries. *)
Lemma roundtrip_depth hasLong (v : value) :
  supported v →
  ∀ msg, serialize v = Ok msg →
  Z.of_nat (length msg) < 2 ^ 32 →
  ∀ depth, (length msg ≤ depth)%nat →
  deserialize_depth hasLong depth msg = Ok v.
Proof.
  induction v as [s|n|b| | |b|elements IH| |c|t] using value_ind';
    intros Hsup msg Hser Hlen depth Hdepth; try done.
  - assert (msg = encode (stringValue s)) as ->
      by (cbn [serialize] in Hser; congruence).
    rewrite deserialize_depth_eq, decode_stringValue; [done|].
    revert Hlen. unfold encode, string_. rewrite length_app.
    pose proof (length_bytes_ge (string_to_bytes s)). lia.
  - cbn [serialize] in Hser. destruct (isSafeInteger n) eqn:Hsafe.
    + assert (msg = encode (intValue (AsNumber (integerValue n)))) as ->
        by congruence.
      destruct n as [z|]; [|done].
      cbn [isSafeInteger integerValue] in *. apply Z.leb_le in Hsafe.
      rewrite deserialize_depth_eq, decode_intValue by lia.
      cbn [lift mbind result_bind oneof_value last].
      destruct hasLong; cbn [int64AsNumber]; by rewrite roundToDouble_safe.
    + assert (msg = encode (doubleValue n)) as -> by congruence.
      destruct Hsup as [?|[Hbits Hnum]]; [congruence|].
      rewrite deserialize_depth_eq, decode_doubleValue by done.
      cbn [lift mbind result_bind oneof_value last]. by rewrite Hnum.
  - assert (msg = encode (booleanValue b)) as ->
      by (cbn [serialize] in Hser; congruence).
    rewrite deserialize_depth_eq. by destruct b.
  - assert (msg = encode (undefinedValue true)) as ->
      by (cbn [serialize] in Hser; congruence).
    by rewrite deserialize_depth_eq.
  - assert (msg = encode (nullValue true)) as ->
      by (cbn [serialize] in Hser; congruence).
    by rewrite deserialize_depth_eq.
  - assert (msg = encode (bytesValue b)) as ->
      by (cbn [serialize] in Hser; congruence).
    rewrite deserialize_depth_eq, decode_bytesValue; [done|].
    revert Hlen. unfold encode. rewrite length_app.
    pose proof (length_bytes_ge b). lia.
  - rewrite serialize_VArray in Hser.
    destruct (serialize_elements elements) as [ms|] eqn:Hms; [|done].
    assert (msg = encode (arrayValue ms)) as ->
      by (cbn [mbind result_bind] in Hser; congruence).
    clear Hser.
    pose proof (length_encode_arrayValue ms) as Hbody.
    assert (∀ m, m ∈ ms → (length m + 4 ≤ length (encode (arrayValue ms)))%nat)
      as Hshort.
    { intros m Hm. pose proof (length_ArrayMessage_encode ms m Hm). lia. }
    rewrite deserialize_depth_eq, decode_arrayValue; [|lia|].
    2: { apply Forall_forall. intros m Hm. specialize (Hshort m Hm). lia. }
    cbn [mbind result_bind lift oneof_value last].
    destruct depth as [|depth]; [lia|].
    assert (deserialize_elements hasLong depth ms = Ok elements) as ->;
      [|done].
    assert (∀ m, m ∈ ms → Z.of_nat (length m) < 2 ^ 32 ∧ (length m ≤ depth)%nat)
      as Hfit.
    { intros m Hm. specialize (Hshort m Hm). lia. }
    clear Hbody Hshort Hlen Hdepth. cbn [supported] in Hsup.
    revert ms Hms Hfit.
    induction IH as [|x l Hx _ IHl]; intros ms Hms Hfit.
    + by assert (ms = []) as -> by (cbn in Hms; congruence).
    + rewrite serialize_elements_cons in Hms.
      destruct (serialize x) as [mx|] eqn:Hmx; [|done].
      destruct (serialize_elements l) as [ml|] eqn:Hml; [|done].
      assert (ms = mx :: ml) as ->
        by (cbn [mbind result_bind] in Hms; congruence).
      destruct Hsup as [Hsx Hsl].
      rewrite deserialize_elements_cons.
      destruct (Hfit mx (list_elem_of_here _ _)) as [Hmxlen Hmxdepth].
      rewrite (Hx Hsx mx eq_refl Hmxlen depth Hmxdepth).
      cbn [mbind result_bind].
      rewrite (IHl Hsl ml eq_refl); [done|].
      intros m Hm. apply Hfit. by apply list_elem_of_further.
Qed.

(** X25. Whatever [serialize] accepts, with numbers that are safe
    integers or doubles, [deserialize] reads back from a message of
    less than 2^32 octets: strings, numbers, booleans, [undefined],
    [null], octet arrays and arrays of such values, nested to any depth. *)
Theorem serialize_deserialize_roundtrip (hasLong : bool) (v : value) :
  supported v →
  ∃ msg, serialize v = Ok msg ∧
         (Z.of_nat (length msg) < 2 ^ 32 → deserialize hasLong msg = Ok v).
Proof.
  intros Hsup.
  destruct (proj2 (serialize_succeeds_iff v) (supported_serializable v Hsup))
    as [msg Hmsg].
  exists msg. split; [done|]. intros Hlen. unfold deserialize.
  by apply (roundtrip_depth hasLong v Hsup msg Hmsg Hlen).
Qed.

End DefaultSerializerMoreFacts.

(** ** The pair serializer *)

Module MoreSerializersFacts.
Import Wire Serializers WireFacts SerializersFacts MoreSerializers.

Lemma PairSerializerMessage_roundtrip (a b : list Z) :
  Z.of_nat (length a) < 2 ^ 32 → Z.of_nat (length b) < 2 ^ 32 →
  PairSerializerMessage_decode (PairSerializerMessage_encode a b) = Ok (a, b).
Proof.
  intros Ha Hb. unfold PairSerializerMessage_decode, PairSerializerMessage_encode.
  change (tag 1 2) with [10]. change (tag 2 2) with [18].
  unfold Wire.decode. cbn [app length decode_loop].
  rewrite read_uint32_octet by lia. cbn [mbind result_bind].
  change (Z.shiftr 10 3) with 1. change (Z.land 10 7) with 2.
  unfold PairSerializerMessage_field at 1. cbn [Z.eqb Pos.eqb].
  rewrite read_bytes_bytes by done. cbn [mbind result_bind two].
  rewrite length_app. cbn [length app Nat.add].
  replace (length (bytes_ a) + S (length (bytes_ b)))%nat
    with (S (length (bytes_ a) + length (bytes_ b)))%nat by lia.
  cbn [decode_loop].
  rewrite read_uint32_octet by lia. cbn [mbind result_bind].
  change (Z.shiftr 18 3) with 2. change (Z.land 18 7) with 2.
  unfold PairSerializerMessage_field at 1. cbn [Z.eqb Pos.eqb].
  rewrite <- (app_nil_r (bytes_ b)) at 1.
  rewrite read_bytes_bytes by done. cbn [mbind result_bind one].
  rewrite decode_loop_nil. done.
Qed.

(** X26. A pair serializer round-trips every pair whose components the
    two given serializers round-trip. *)
Theorem pair_roundtrip {T U} (oneSerializer : Serializer T)
    (twoSerializer : Serializer U) (x : T) (y : U) :
  roundTrips oneSerializer x → roundTrips twoSerializer y →
  ∃ message,
    serialize (PairSerializer oneSerializer twoSerializer) (x, y) = Ok message ∧
    deserialize (PairSerializer oneSerializer twoSerializer) message = Ok (x, y).
Proof.
  intros (a & Ha & Hla & Hda) (b & Hb & Hlb & Hdb).
  exists (PairSerializerMessage_encode a b). simpl.
  rewrite Ha, Hb. simpl. split; [done|].
  rewrite PairSerializerMessage_roundtrip by done. simpl.
  by rewrite Hda, Hdb.
Qed.

End MoreSerializersFacts.

(** ** Booleans *)

Module CBooleanFacts.
Import CBoolean.

(** X27. The boolean serializer round-trips in at most one octet, and
    reads every message: the empty one as [true], any other as [false]. *)
Theorem boolean_roundtrip (b : bool) (message : list Z) :
  deserialize (serialize b) = b ∧
  (deserialize message = true ↔ message = []) ∧
  (length (serialize b) <= 1)%nat.
Proof.
  split; [by destruct b|]. split.
  - unfold deserialize. destruct message; simpl; split; done.
  - destruct b; simpl; lia.
Qed.

Lemma TrueWins_true items :
  TrueWins items = true ↔ ∃ i, i ∈ items ∧ value i = true.
Proof.
  unfold TrueWins, find.
  destruct (List.find _ items) as [i|] eqn:Hf.
  - apply find_some in Hf as [Hin Hv]. split; [|done]. intros _.
    exists i. split; [by apply list_elem_of_In|done].
  - split; [done|]. intros (i & Hin & Hv).
    apply list_elem_of_In in Hin.
    pose proof (find_none _ _ Hf i Hin) as Hn. simpl in Hn. congruence.
Qed.

Lemma FalseWins_false items :
  FalseWins items = false ↔ ∃ i, i ∈ items ∧ value i = false.
Proof.
  unfold FalseWins, find.
  destruct (List.find _ items) as [i|] eqn:Hf.
  - apply find_some in Hf as [Hin Hv]. split; [|done]. intros _.
    exists i. split; [by apply list_elem_of_In|]. by apply negb_true_iff.
  - split; [done|]. intros (i & Hin & Hv).
    apply list_elem_of_In in Hin.
    pose proof (find_none _ _ Hf i Hin) as Hn. simpl in Hn.
    rewrite Hv in Hn. done.
Qed.

(** X28. The enable-wins aggregate is [true] iff some item is [true],
    the disable-wins aggregate is [false] iff some item is [false];
    without items the first is [false] and the second [true]. *)
Theorem aggregators_any (items : list item) :
  (TrueWins items = true ↔ ∃ i, i ∈ items ∧ value i = true) ∧
  (FalseWins items = false ↔ ∃ i, i ∈ items ∧ value i = false) ∧
  TrueWins [] = false ∧ FalseWins [] = true.
Proof.
  split; [apply TrueWins_true|]. split; [apply FalseWins_false|]. done.
Qed.

(** X29. The aggregate does not depend on the order in which the items
    are given. *)
Theorem aggregators_order_independent (winner : bool)
    (items items' : list item) :
  items ≡ₚ items' → aggregator winner items = aggregator winner items'.
Proof.
  intros Hp. destruct winner; simpl.
  - apply eq_true_iff_eq. rewrite !TrueWins_true.
    split; intros (i & Hi & Hv); exists i; (split; [|done]).
    + by rewrite <- Hp.
    + by rewrite Hp.
  - destruct (FalseWins items) eqn:H1, (FalseWins items') eqn:H2; try done.
    + apply FalseWins_false in H2 as (i & Hi & Hv).
      assert (FalseWins items = false) as H; [|congruence].
      apply FalseWins_false. exists i. split; [by rewrite Hp|done].
    + apply FalseWins_false in H1 as (i & Hi & Hv).
      assert (FalseWins items' = false) as H; [|congruence].
      apply FalseWins_false. exists i. split; [by rewrite <- Hp|done].
Qed.

End CBooleanFacts.

(** ** The properties above, on concrete inputs *)

Module MoreWitnesses.
Import Examples MoreExamples.

Lemma delivered_once_witness :
  ∃ c, VectorClock.vectorMap T_ready !! VectorClock.uid T_ready = Some c ∧
       VectorClock.vectorMap R_ready !! VectorClock.uid T_ready = Some (c - 1) ∧
       VectorClock.vectorMap (VectorClock.merge R_ready T_ready)
         !! VectorClock.uid T_ready = Some c ∧
       VectorClock.isready (VectorClock.merge R_ready T_ready) T_ready = false.
Proof.
  apply (VectorClockMoreFacts.delivered_once R_ready T_ready).
  by vm_compute.
Defined.

Lemma unknown_sender_never_ready_witness :
  VectorClock.isready (VectorClock.new "r") T_ready = false.
Proof.
  apply (VectorClockMoreFacts.unknown_sender_never_ready
           (VectorClock.new "r") T_ready).
  reflexivity.
Defined.

Lemma S_before_covered :
  ∀ k x, k ≠ VectorClock.uid S_before →
         VectorClock.vectorMap S_before !! k = Some x →
         ∃ r, VectorClock.vectorMap R_ready !! k = Some r ∧ r >= x.
Proof.
  intros k x Hne. unfold S_before, R_ready in *. simpl in *.
  rewrite !lookup_insert. repeat case_decide; intros; simplify_eq.
  exists 1. split; [done|lia].
Qed.

Lemma next_message_ready_witness :
  VectorClock.isready R_ready (VectorClock.increment S_before) = true.
Proof.
  apply (VectorClockMoreFacts.next_message_ready R_ready S_before 0).
  - reflexivity.
  - reflexivity.
  - exact S_before_covered.
Defined.

Lemma someOps_nonneg : Forall VectorClockMore.nonneg_op someOps.
Proof.
  repeat constructor; simpl; [apply VectorClockFacts.nonneg_T_ready|lia].
Qed.

Lemma counters_never_negative_witness :
  VectorClock.nonneg
    (VectorClock.vectorMap (VectorClock.run (VectorClock.new "r") someOps)).
Proof.
  apply (VectorClockMoreFacts.counters_never_negative "r" someOps).
  exact someOps_nonneg.
Defined.

Lemma counters_never_decrease_witness :
  ∃ v', VectorClock.vectorMap (VectorClock.run R_ready growingOps) !! "s"
        = Some v' ∧ 0 <= v'.
Proof.
  apply (VectorClockMoreFacts.counters_never_decrease R_ready growingOps "s" 0);
    reflexivity.
Defined.

Lemma causally_later_write_overwrites_witness :
  Lww.receive differs registerAlice tsBobAfter writeBobEarlier =
  ({| Lww.value := "B"; Lww.initialValue := "";
      Lww.sender := Some "bob"; Lww.counter := 1;
      Lww.time := Some 1600000000000 |},
   differs "A" "B",
   if differs "A" "B"
   then Some {| Lww.ev_timestamp := tsBobAfter; Lww.ev_value := "B";
                Lww.ev_oldValue := "A"; Lww.ev_timeSet := 1600000000000 |}
   else None).
Proof.
  apply (LwwMoreFacts.causally_later_write_overwrites differs registerAlice
           tsBobAfter writeBobEarlier "alice" 1).
  - reflexivity.
  - reflexivity.
  - simpl. lia.
Defined.

Lemma register_holds_a_received_write_witness :
  (∃ w, w ∈ twoWrites ∧
        LwwMore.stores
          (LwwMore.receiveAll differs (Lww.initialState "") twoWrites) w) ∧
  Lww.initialValue (LwwMore.receiveAll differs (Lww.initialState "") twoWrites)
  = "" ∧
  LwwMore.isInInitialState
    (LwwMore.receiveAll differs (Lww.initialState "") twoWrites) = false ∧
  LwwMore.resetLocalState
    (LwwMore.receiveAll differs (Lww.initialState "") twoWrites)
  = Lww.initialState "".
Proof.
  apply (LwwMoreFacts.register_holds_a_received_write differs "" twoWrites).
  discriminate.
Defined.




Lemma write_after_all_replaces_witness :
  (Mvr.receive mvrState tsBobAfter (Mvr.Value "B")).1
  = [Mvr.entryOf tsBobAfter "B"] ∧
  Mvr.valueSet (Mvr.receive mvrState tsBobAfter (Mvr.Value "B")).1 = ["B"] ∧
  (Mvr.receive mvrState tsBobAfter Mvr.Reset).1 = [] ∧
  Mvr.valueSet (Mvr.receive mvrState tsBobAfter Mvr.Reset).1 = [].
Proof.
  apply (MvrFacts.write_after_all_replaces mvrState tsBobAfter "B").
  repeat constructor.
Defined.

Lemma concurrent_writes_both_kept_witness :
  (Mvr.receive (Mvr.receive mvrState tsAlice (Mvr.Value "A2")).1
               tsBob (Mvr.Value "B")).1
  ≡ₚ (Mvr.receive (Mvr.receive mvrState tsBob (Mvr.Value "B")).1
                  tsAlice (Mvr.Value "A2")).1 ∧
  Mvr.entryOf tsAlice "A2"
  ∈ (Mvr.receive (Mvr.receive mvrState tsAlice (Mvr.Value "A2")).1
                 tsBob (Mvr.Value "B")).1 ∧
  Mvr.entryOf tsBob "B"
  ∈ (Mvr.receive (Mvr.receive mvrState tsAlice (Mvr.Value "A2")).1
                 tsBob (Mvr.Value "B")).1.
Proof.
  apply (MvrFacts.concurrent_writes_both_kept mvrState tsAlice tsBob "A2" "B");
    reflexivity.
Defined.

Lemma delete_freezes_child_witness :
  ∃ this',
    YjsCrdtSet.receiveInternal newChild initChild childReceive
      decodeSetMessage2 serializeName Wire.bytes_to_string
      setWithChild [] tsRemote (1 :: Wire.string_to_bytes "c1") = Ok this' ∧
    YjsCrdtSet.children this'
    = delete "c1" (YjsCrdtSet.children setWithChild) ∧
    (YjsCrdtSet.children setWithChild !! "c1" = None → this' = setWithChild) ∧
    ∀ (targetPath : list string) (timestamp' : CausalTimestamp)
      (message' : list Z),
      last targetPath = Some "c1" →
      YjsCrdtSet.receiveInternal newChild initChild childReceive
        decodeSetMessage2 serializeName Wire.bytes_to_string
        this' targetPath timestamp' message'
      = if isLocal timestamp' then Throw (YjsCrdtSet.FrozenChild "c1")
        else Ok this'.
Proof.
  apply (YjsCrdtSetMoreFacts.delete_freezes_child newChild initChild
           childReceive decodeSetMessage2 serializeName Wire.bytes_to_string
           setWithChild tsRemote (1 :: Wire.string_to_bytes "c1") "c1").
  reflexivity.
Defined.

Lemma create_twice_throws_witness :
  YjsCrdtSet.receiveInternal newChild initChild childReceive
    decodeSetMessage2 serializeName Wire.bytes_to_string
    {| YjsCrdtSet.children :=
         <[aliceChild := "alice"]> (YjsCrdtSet.children setWithChild);
       YjsCrdtSet.childBeingAdded := None;
       YjsCrdtSet.ourCreatedCrdt := None;
       YjsCrdtSet.emitted :=
         [YjsCrdtSet.ValueInit "alice"; YjsCrdtSet.Add "alice" tsRemote] |}
    [] tsLocal [0; 7]
  = Throw (YjsCrdtSet.DuplicateName
             (YjsCrdtSet.childName serializeName Wire.bytes_to_string
                (getSender tsRemote) 7)).
Proof.
  apply (YjsCrdtSetMoreFacts.create_twice_throws newChild initChild
           childReceive decodeSetMessage2 serializeName Wire.bytes_to_string
           setWithChild _ tsRemote tsLocal [0; 7] 7).
  - reflexivity.
  - by vm_compute.
  - reflexivity.
Defined.

Lemma create_then_delete_witness :
  ∃ created deleted,
    YjsCrdtSet.receiveInternal newChild initChild childReceive
      decodeSetMessage2 serializeName Wire.bytes_to_string
      setWithChild [] tsRemote [0; 7] = Ok created ∧
    YjsCrdtSet.receiveInternal newChild initChild childReceive
      decodeSetMessage2 serializeName Wire.bytes_to_string
      created [] tsLocal deleteAliceChild = Ok deleted ∧
    YjsCrdtSetMore.canGc created = false ∧
    YjsCrdtSet.children deleted = YjsCrdtSet.children setWithChild ∧
    YjsCrdtSetMore.canGc deleted = YjsCrdtSetMore.canGc setWithChild ∧
    YjsCrdtSet.emitted deleted
    = YjsCrdtSet.emitted setWithChild
      ++ [YjsCrdtSet.ValueInit
            (initChild
               (YjsCrdtSet.childName serializeName Wire.bytes_to_string
                  (getSender tsRemote) 7)
               (newChild (getSender tsRemote)));
          YjsCrdtSet.Add
            (initChild
               (YjsCrdtSet.childName serializeName Wire.bytes_to_string
                  (getSender tsRemote) 7)
               (newChild (getSender tsRemote))) tsRemote;
          YjsCrdtSet.Deleted
            (initChild
               (YjsCrdtSet.childName serializeName Wire.bytes_to_string
                  (getSender tsRemote) 7)
               (newChild (getSender tsRemote))) tsLocal].
Proof.
  apply (YjsCrdtSetMoreFacts.create_then_delete newChild initChild
           childReceive decodeSetMessage2 serializeName Wire.bytes_to_string
           setWithChild tsRemote tsLocal [0; 7] deleteAliceChild 7).
  - reflexivity.
  - by vm_compute.
  - by vm_compute.
Defined.

Lemma route_to_child_witness :
  ∃ this',
    YjsCrdtSet.receiveInternal newChild initChild childReceive
      decodeSetMessage2 serializeName Wire.bytes_to_string
      setWithChild ["leaf"; "c1"] tsRemote [9] = Ok this' ∧
    YjsCrdtSet.children this' !! "c1" = Some "alice" ∧
    (∀ other, other ≠ "c1" →
              YjsCrdtSet.children this' !! other
              = YjsCrdtSet.children setWithChild !! other) ∧
    dom (YjsCrdtSet.children this') = dom (YjsCrdtSet.children setWithChild) ∧
    YjsCrdtSet.emitted this' = YjsCrdtSet.emitted setWithChild ∧
    YjsCrdtSet.ourCreatedCrdt this' = YjsCrdtSet.ourCreatedCrdt setWithChild.
Proof.
  apply (YjsCrdtSetMoreFacts.route_to_child newChild initChild childReceive
           decodeSetMessage2 serializeName Wire.bytes_to_string
           setWithChild ["leaf"; "c1"] "c1" "alice" tsRemote [9]);
    reflexivity.
Defined.

Lemma nested_supported : DefaultSerializerMore.supported nested.
Proof. simpl. repeat split. by left. Qed.

Lemma serialize_deserialize_roundtrip_witness :
  ∃ msg, Serializers.serialize nested = Ok msg ∧
         (Z.of_nat (length msg) < 2 ^ 32 →
          Serializers.deserialize true msg = Ok nested).
Proof.
  apply (DefaultSerializerMoreFacts.serialize_deserialize_roundtrip true nested).
  exact nested_supported.
Defined.

Lemma default_roundTrips_string :
  MoreSerializers.roundTrips (MoreSerializers.DefaultSerializer true)
    (Serializers.VString "a").
Proof. exists [10; 1; 97]. by vm_compute. Qed.

Lemma default_roundTrips_five :
  MoreSerializers.roundTrips (MoreSerializers.DefaultSerializer true)
    (Serializers.VNumber (Serializers.Integer 5)).
Proof. exists [16; 10]. by vm_compute. Qed.

Lemma pair_roundtrip_witness :
  ∃ message,
    MoreSerializers.serialize
      (MoreSerializers.PairSerializer (MoreSerializers.DefaultSerializer true)
         (MoreSerializers.DefaultSerializer true))
      (Serializers.VString "a", Serializers.VNumber (Serializers.Integer 5))
    = Ok message ∧
    MoreSerializers.deserialize
      (MoreSerializers.PairSerializer (MoreSerializers.DefaultSerializer true)
         (MoreSerializers.DefaultSerializer true)) message
    = Ok (Serializers.VString "a", Serializers.VNumber (Serializers.Integer 5)).
Proof.
  apply (MoreSerializersFacts.pair_roundtrip
           (MoreSerializers.DefaultSerializer true)
           (MoreSerializers.DefaultSerializer true)).
  - exact default_roundTrips_string.
  - exact default_roundTrips_five.
Defined.

Lemma aggregators_order_independent_witness :
  CBoolean.aggregator true items1 = CBoolean.aggregator true items2.
Proof.
  apply (CBooleanFacts.aggregators_order_independent true items1 items2).
  apply perm_swap.
Defined.

End MoreWitnesses.
